(** * DiskSage duplicate finder: [find_duplicates_e_drive.py]

    A shallow embedding of the duplicate finder and mover, and the
    properties of its three-phase funnel (size bucket, partial hash, full
    hash), of the keeper selection and of the relocation planner. *)

From Stdlib Require Import NArith ZArith Lia String Ascii.
From stdpp Require Import base tactics option list sorting.

Set Default Proof Using "Type".
Set Warnings "-abstract-large-number".

(** ** Python values *)

(** A Python [str] is a sequence of code points; [len] is its length and
    [<] on strings is the lexicographic order of the code points. *)
Definition str : Type := list N.

(** A [bytes] object. *)
Definition bytes : Type := list Byte.byte.

(** String literals of the source, read code point by code point. *)
Fixpoint py (s : string) : str :=
  match s with
  | EmptyString => []
  | String c s' => N_of_ascii c :: py s'
  end.

(** Truthiness of a string: [if s:] holds for the non-empty ones. *)
Definition truthy (s : str) : bool :=
  match s with [] => false | _ :: _ => true end.

(** Exceptions the program can meet.  [OSError] stands for the whole
    family caught by [except (OSError, PermissionError)]; the others are
    caught nowhere in the program. *)
Inductive exn : Type :=
| OSError (msg : str)
| ValueError (msg : str)
| IndexError (msg : str).

Definition is_OSError (e : exn) : bool :=
  match e with OSError _ => true | _ => false end.

(** [str(e)] *)
Definition exn_str (e : exn) : str :=
  match e with OSError m | ValueError m | IndexError m => m end.

Inductive result (A : Type) : Type :=
| Ok (a : A)
| Raise (e : exn).
Arguments Ok {A} a.
Arguments Raise {A} e.

(** ** Ordering of the sort key [(len(p), p)] *)

(** [a < b] on strings. *)
Fixpoint str_ltb (a b : str) : bool :=
  match a, b with
  | _, [] => false
  | [], _ :: _ => true
  | x :: a', y :: b' =>
      if (x <? y)%N then true
      else if (x =? y)%N then str_ltb a' b'
      else false
  end.

(** [lambda p: (len(p), p)] *)
Definition sort_key (p : str) : nat * str := (length p, p).

(** [k1 < k2] on the key tuples: first components first, the second
    ones on a tie. *)
Definition key_ltb (k1 k2 : nat * str) : bool :=
  if (k1.1 <? k2.1)%nat then true
  else if (k1.1 =? k2.1)%nat then str_ltb k1.2 k2.2
  else false.

(** ** [sorted]: a stable sort that only ever asks [<] of two keys *)

Section Sorted.
Context {A K : Type} (key : A → K) (ltb : K → K → bool).

(** [x] stood before every element of [l] in the input, so it goes in
    front of the first element that is not strictly smaller. *)
Fixpoint insort (x : A) (l : list A) : list A :=
  match l with
  | [] => [x]
  | y :: l' =>
      if ltb (key y) (key x) then y :: insort x l' else x :: y :: l'
  end.

Definition sorted (l : list A) : list A := foldr insort [] l.
End Sorted.

(** ** Keeper selection *)

(** [pick_keeper]: [group_sorted[0]] raises [IndexError] on an empty
    group. *)
Definition pick_keeper (group : list str) : result (str * list str) :=
  let group_sorted := sorted sort_key key_ltb group in
  match group_sorted with
  | [] => Raise (IndexError (py "list index out of range"))
  | keeper :: movers => Ok (keeper, movers)
  end.

(** ** Ordered dictionaries *)

(** A [dict] remembers the order in which its keys were first inserted
    and [items()] iterates in that order: an association list. *)
Definition dict (K V : Type) : Type := list (K * V).

Section Dict.
Context {K V : Type} `{EqDecision K}.

(** [d.get(k)] *)
Fixpoint dict_get (k : K) (d : dict K V) : option V :=
  match d with
  | [] => None
  | (k', v) :: d' => if decide (k = k') then Some v else dict_get k d'
  end.

(** [d[k].append(x)] on a [defaultdict(list)]: a missing key is
    created, at the end, with the empty list. *)
Fixpoint dict_append (k : K) (x : V) (d : dict K (list V)) : dict K (list V) :=
  match d with
  | [] => [(k, [x])]
  | (k', xs) :: d' =>
      if decide (k = k') then (k', xs ++ [x]) :: d'
      else (k', xs) :: dict_append k x d'
  end.
End Dict.

(** ** Effects: a state and exception monad

    A computation runs on a state, and returns a value or raises; the
    state it leaves behind is kept in both cases. *)
Definition M (S A : Type) : Type := S → result A * S.

Section Monad.
Context {S : Type}.

Definition ret {A} (a : A) : M S A := λ s, (Ok a, s).

Definition raise {A} (e : exn) : M S A := λ s, (Raise e, s).

Definition bind {A B} (m : M S A) (k : A → M S B) : M S B :=
  λ s, match m s with
       | (Ok a, s') => k a s'
       | (Raise e, s') => (Raise e, s')
       end.

(** [try: m except (OSError, PermissionError) as e: handler e] *)
Definition try_except {A} (m : M S A) (handler : exn → M S A) : M S A :=
  λ s, match m s with
       | (Ok a, s') => (Ok a, s')
       | (Raise e, s') =>
           if is_OSError e then handler e s' else (Raise e, s')
       end.

(** A pure call that may raise. *)
Definition lift {A} (r : result A) : M S A := λ s, (r, s).

(** [for x in l: acc = body x acc] *)
Fixpoint for_each {X A} (l : list X) (body : X → A → M S A) (acc : A) : M S A :=
  match l with
  | [] => ret acc
  | x :: l' => bind (body x acc) (for_each l' body)
  end.
End Monad.

Notation "x <- m ;; k" := (bind m (λ x, k))
  (at level 100, m at next level, right associativity,
   format "'[v' x  <-  m  ;;  '/' k ']'").
Notation "m ;;; k" := (bind m (λ _, k))
  (at level 100, right associativity).

(** ** hashlib

    A hash object is fed chunks and its digest is the digest of their
    concatenation; [hexdigest] prints it as 32 (MD5) or 64 (SHA-256)
    lower-case hexadecimal digits. *)
Definition is_hex_digit (c : N) : bool :=
  ((48 <=? c) && (c <=? 57) || (97 <=? c) && (c <=? 102))%N.

Class Hashlib : Type := {
  md5_hexdigest : bytes → str;
  sha256_hexdigest : bytes → str;
}.

Class HashlibLaws `{Hashlib} : Prop := {
  md5_hexdigest_length : ∀ b, length (md5_hexdigest b) = 32;
  sha256_hexdigest_length : ∀ b, length (sha256_hexdigest b) = 64;
  md5_hexdigest_hex : ∀ b, forallb is_hex_digit (md5_hexdigest b) = true;
  sha256_hexdigest_hex : ∀ b, forallb is_hex_digit (sha256_hexdigest b) = true;
}.

(** The state of a hash object: what it has been fed so far. *)
Definition hasher : Type := bytes.
Definition hash_new : hasher := [].
Definition hash_update (h : hasher) (chunk : bytes) : hasher := h ++ chunk.

(** ** The file system seen by the scan *)

(** A file has a content and possibly a first offset at which reading it
    fails (a bad sector, a locked range). *)
Record file : Type := File { data : bytes; fault : option nat }.

(** An open file object: the file and the read position. *)
Record file_object : Type := FileObject { fo_file : file; fo_pos : nat }.

(** Fingerprint computations, recorded as they happen. *)
Inductive call : Type :=
| PartialHash (path : str)
| FullHash (path : str).

(** The scan's world: which paths can be opened and what they hold, and
    the fingerprint computations made so far.  The files are those of one
    moment: nothing but the scan itself acts during a run, and the scan
    only reads. *)
Record World : Type := mkWorld {
  files : str → option file;
  calls : list call;
}.

Definition record_call (c : call) : M World unit :=
  λ w, (Ok (), mkWorld (files w) (calls w ++ [c])).

(** [open(path, "rb")] *)
Definition open_rb (path : str) : M World file_object :=
  λ w, match files w path with
       | Some f => (Ok (FileObject f 0), w)
       | None => (Raise (OSError (py "cannot open file")), w)
       end.

(** [f.read(n)]: the next [n] bytes, fewer at the end of the file, and the
    file object moved past them. *)
Definition f_read (f : file_object) (n : nat) : M World (bytes * file_object) :=
  let chunk := take n (drop (fo_pos f) (data (fo_file f))) in
  match fault (fo_file f) with
  | Some k =>
      if bool_decide (fo_pos f ≤ k < fo_pos f + length chunk)
      then raise (OSError (py "read error"))
      else ret (chunk, FileObject (fo_file f) (fo_pos f + length chunk))
  | None => ret (chunk, FileObject (fo_file f) (fo_pos f + length chunk))
  end.

Definition PARTIAL_CHUNK_SIZE : nat := 8192.
Definition FULL_CHUNK_SIZE : nat := 65536.
Arguments PARTIAL_CHUNK_SIZE : simpl never.
Arguments FULL_CHUNK_SIZE : simpl never.

Section Fingerprinter.
Context `{Hashlib}.

(** [partial_hash] *)
Definition partial_hash (path : str) (chunk_size : nat) : M World str :=
  record_call (PartialHash path) ;;;
  let h := hash_new in
  try_except
    (f <- open_rb path ;;
     r <- f_read f chunk_size ;;
     let h := hash_update h r.1 in
     ret (md5_hexdigest h))
    (λ _, ret []).

(** [while chunk := f.read(chunk_size): h.update(chunk)].  Every turn
    of the loop moves the file object forward by at least one byte, so
    [fuel] bounds the turns when it is the number of bytes left. *)
Fixpoint read_chunks (fuel : nat) (f : file_object) (chunk_size : nat)
    (h : hasher) : M World hasher :=
  r <- f_read f chunk_size ;;
  let '(chunk, f) := r in
  match chunk with
  | [] => ret h
  | _ :: _ =>
      let h := hash_update h chunk in
      match fuel with
      | 0 => ret h
      | S fuel' => read_chunks fuel' f chunk_size h
      end
  end.

(** [full_hash] *)
Definition full_hash (path : str) (chunk_size : nat) : M World str :=
  record_call (FullHash path) ;;;
  let h := hash_new in
  try_except
    (f <- open_rb path ;;
     h <- read_chunks (length (data (fo_file f))) f chunk_size h ;;
     ret (sha256_hexdigest h))
    (λ _, ret []).

(** ** Duplicate resolver *)

(** [find_duplicates] *)
Definition find_duplicates (size_map : dict Z (list str))
    : M World (list (list str)) :=
  let duplicate_groups : list (list str) := [] in
  let candidates := filter (λ b, 1 < length b.2) size_map in
  for_each candidates (λ '(size, paths) duplicate_groups,
    (* Pass 2: partial hash *)
    partial_map <- for_each paths (λ p partial_map,
        ph <- partial_hash p PARTIAL_CHUNK_SIZE ;;
        if truthy ph then ret (dict_append ph p partial_map)
        else ret partial_map) [] ;;
    (* Pass 3: full hash only where partial hashes collide *)
    for_each partial_map (λ '(ph, plist) duplicate_groups,
        if bool_decide (length plist < 2) then ret duplicate_groups
        else
          full_map <- for_each plist (λ p full_map,
              fh <- full_hash p FULL_CHUNK_SIZE ;;
              if truthy fh then ret (dict_append fh p full_map)
              else ret full_map) [] ;;
          for_each full_map (λ '(fh, flist) duplicate_groups,
              if bool_decide (2 ≤ length flist)
              then ret (duplicate_groups ++ [flist])
              else ret duplicate_groups) duplicate_groups)
      duplicate_groups)
    duplicate_groups.
End Fingerprinter.

(** ** Relocation planner *)

(** A cell of the CSV report, and a row of it. *)
Inductive cell : Type :=
| CInt (z : Z)
| CStr (s : str).

Definition row : Type := list cell.

Definition REPORT_CSV : str := py "L:\find_duplicates\duplicate_report.csv".

(** The root the destination is computed against: the literal of the
    call [os.path.relpath(src, "C:\\")]. *)
Definition RELPATH_START : str := py "C:\".

Definition HEADER : row :=
  [CStr (py "group"); CStr (py "action"); CStr (py "original_path");
   CStr (py "destination"); CStr (py "size_bytes")].

(** [s.startswith(prefix)] *)
Fixpoint startswith (s prefix : str) : bool :=
  match prefix, s with
  | [], _ => true
  | _ :: _, [] => false
  | c :: prefix', d :: s' => if (c =? d)%N then startswith s' prefix' else false
  end.

(** [s.replace(old, new)] for a non-empty [old]: [skip] counts the
    characters of a match that are still to be dropped. *)
Fixpoint replace_from (skip : nat) (s old new : str) : str :=
  match s with
  | [] => []
  | c :: s' =>
      match skip with
      | S skip' => replace_from skip' s' old new
      | 0 =>
          if startswith s old
          then new ++ replace_from (length old - 1) s' old new
          else c :: replace_from 0 s' old new
      end
  end.

Definition str_replace (s old new : str) : str := replace_from 0 s old new.

(** [enumerate(l, start)] *)
Fixpoint enumerate {A} (start : nat) (l : list A) : list (nat * A) :=
  match l with
  | [] => []
  | x :: l' => (start, x) :: enumerate (S start) l'
  end.

(** The operating system, as far as the planner calls it.  Each call
    runs on the state of the machine, may fail, and may change it;
    nothing is assumed about when a call fails. *)
Class OS (Machine : Type) : Type := {
  (** [os.makedirs(path, exist_ok=True)] *)
  os_makedirs : str → M Machine unit;
  (** [os.path.getsize(path)] *)
  os_path_getsize : str → M Machine Z;
  (** [shutil.move(src, dst)] *)
  shutil_move : str → str → M Machine unit;
  (** [open(path, "w", newline="", encoding="utf-8")] *)
  open_w : str → M Machine unit;
  (** [datetime.now().strftime("%Y%m%d_%H%M%S")] *)
  now_strftime : M Machine str;
  (** [os.path.relpath(path, start)]: raises [ValueError] where no
      relative path exists, as between two drives. *)
  os_path_relpath : str → str → result str;
  (** [os.path.join(a, b)] *)
  os_path_join : str → str → str;
  (** [os.path.dirname(path)] *)
  os_path_dirname : str → str;
}.

(** The planner's state: the machine and the rows written to the
    report so far. *)
Record Plan (Machine : Type) : Type := mkPlan {
  machine : Machine;
  report : list row;
}.
Arguments mkPlan {Machine} _ _.
Arguments machine {Machine} _.
Arguments report {Machine} _.


Section Planner.
Context {Machine : Type} `{OS Machine}.

(** A call of the operating system, run on the planner's state. *)
Definition sys {A} (m : M Machine A) : M (Plan Machine) A :=
  λ s, let '(r, mc) := m (machine s) in (r, mkPlan mc (report s)).

(** [writer.writerow(r)] *)
Definition writerow (r : row) : M (Plan Machine) unit :=
  λ s, (Ok (), mkPlan (machine s) (report s ++ [r])).

(** The body of [for src in movers]; the counters [moved] and
    [freed_bytes] are the loop's accumulator. *)
Definition move_duplicates_mover (gid : nat) (file_size : Z)
    (dest_root : str) (dry_run : bool) (src : str) (acc : nat * Z)
    : M (Plan Machine) (nat * Z) :=
  let '(moved, freed_bytes) := acc in
  rel <- lift (os_path_relpath src RELPATH_START) ;;
  let dst := os_path_join dest_root rel in
  if dry_run then
    writerow [CInt (Z.of_nat gid); CStr (py "WOULD_MOVE"); CStr src;
              CStr dst; CInt file_size] ;;;
    ret (moved, freed_bytes)
  else
    try_except
      (sys (os_makedirs (os_path_dirname dst)) ;;;
       sys (shutil_move src dst) ;;;
       writerow [CInt (Z.of_nat gid); CStr (py "MOVED"); CStr src;
                 CStr dst; CInt file_size] ;;;
       ret (moved + 1, (freed_bytes + file_size)%Z))
      (λ e,
       writerow [CInt (Z.of_nat gid); CStr (py "ERROR"); CStr src;
                 CStr (exn_str e); CInt file_size] ;;;
       ret (moved, freed_bytes)).

(** The body of [for gid, group in enumerate(duplicate_groups, 1)]. *)
Definition move_duplicates_group (dest_root : str) (dry_run : bool)
    (g : nat * list str) (acc : nat * Z) : M (Plan Machine) (nat * Z) :=
  let '(gid, group) := g in
  km <- lift (pick_keeper group) ;;
  let '(keeper, movers) := km in
  stat <- try_except
            (file_size <- sys (os_path_getsize keeper) ;;
             ret (Some file_size))
            (λ _, ret None) ;;
  match stat with
  | None => ret acc
  | Some file_size =>
      writerow [CInt (Z.of_nat gid); CStr (py "KEEP"); CStr keeper;
                CStr []; CInt file_size] ;;;
      for_each movers
        (move_duplicates_mover gid file_size dest_root dry_run) acc
  end.

(** [move_duplicates] *)
Definition move_duplicates (duplicate_groups : list (list str))
    (dest_root : str) (dry_run : bool) : M (Plan Machine) str :=
  sys (os_makedirs dest_root) ;;;
  let moved := 0 in
  let freed_bytes := 0%Z in
  timestamp <- sys now_strftime ;;
  let report_path :=
    str_replace REPORT_CSV (py ".csv") (py "_" ++ timestamp ++ py ".csv") in
  sys (open_w report_path) ;;;
  writerow HEADER ;;;
  for_each (enumerate 1 duplicate_groups)
    (move_duplicates_group dest_root dry_run) (moved, freed_bytes) ;;;
  ret report_path.
End Planner.

(** ** Size bucketer *)

(** Folders to skip, in lower case. *)
Definition SKIP_DIRS : list str :=
  [py "windows"; py "$recycle.bin"; py "system volume information";
   py "$windows.~bt"; py "$windows.~ws"; py "recovery";
   py "program files"; py "program files (x86)"; py "programdata";
   py "norton sandbox"].

(** What [os.walk(top)] finds below a directory it can list, top down:
    the path of the directory, the names of the files in it, and what
    the walk finds in each of the subdirectories it goes down into
    when the loop body leaves [dirnames] alone (a subdirectory that
    cannot be listed yields nothing and is not among them). *)
#[local] Unset Elimination Schemes.
Inductive tree : Type :=
| Node (dirpath : str) (filenames : list str) (subdirs : list tree).
#[local] Set Elimination Schemes.

(** What the scanner asks of the libraries, on the file system as it
    is at the moment of the scan. *)
Class ScanOS : Type := {
  (** [os.walk(top)]: nothing when [top] cannot be listed. *)
  os_walk : str → option tree;
  (** [Path(p).parts] *)
  path_parts : str → list str;
  (** [s.lower()] *)
  str_lower : str → str;
  (** [os.path.join(a, b)] *)
  path_join : str → str → str;
  (** [os.stat(p).st_size], or what [os.stat] raises. *)
  stat_size : str → result Z;
}.

(** The same libraries with another [os.walk]. *)
Definition with_walk (O : ScanOS) (walk : str → option tree) : ScanOS :=
  {| os_walk := walk;
     path_parts := @path_parts O;
     str_lower := @str_lower O;
     path_join := @path_join O;
     stat_size := @stat_size O |}.

Section Scanner.
Context `{ScanOS} {S : Type}.

(** [should_skip] *)
Definition should_skip (dirpath : str) : bool :=
  let parts := path_parts dirpath in
  existsb (λ p, bool_decide (str_lower p ∈ SKIP_DIRS)) parts.

(** [for dirpath, dirnames, filenames in <walk of top>: body].  The
    body tells whether it has emptied [dirnames]; the walk then leaves
    the subdirectories out, and else goes down into each in turn. *)
Fixpoint walk_each {A} (top : tree)
    (body : str → list str → A → M S (bool * A)) (acc : A) : M S A :=
  match top with
  | Node dirpath filenames subdirs =>
      r <- body dirpath filenames acc ;;
      let '(cleared, acc) := r in
      if (cleared : bool) then ret acc
      else
        (fix walk_subdirs (l : list tree) (acc : A) : M S A :=
           match l with
           | [] => ret acc
           | sub :: l' =>
               acc <- walk_each sub body acc ;;
               walk_subdirs l' acc
           end) subdirs acc
  end.

(** The body of [for fname in filenames]; the accumulator holds
    [size_map] and [file_count].  The progress lines that the loop
    writes to the log are left out. *)
Definition scan_files_file (min_size : Z) (dirpath fname : str)
    (acc : dict Z (list str) * nat) : M S (dict Z (list str) * nat) :=
  let '(size_map, file_count) := acc in
  let fpath := path_join dirpath fname in
  try_except
    (st_size <- lift (stat_size fpath) ;;
     if (min_size <=? st_size)%Z
     then ret (dict_append st_size fpath size_map, file_count + 1)
     else ret (size_map, file_count))
    (λ _, ret (size_map, file_count)).

(** [scan_files] *)
Definition scan_files (source_root : str) (min_size : Z)
    : M S (dict Z (list str)) :=
  let size_map : dict Z (list str) := [] in
  let file_count := 0 in
  acc <- match os_walk source_root with
         | None => ret (size_map, file_count)
         | Some top =>
             walk_each top (λ dirpath filenames acc,
               if should_skip dirpath then ret (true, acc)
               else
                 acc <- for_each filenames
                          (scan_files_file min_size dirpath) acc ;;
                 ret (false, acc)) (size_map, file_count)
         end ;;
  ret acc.1.
End Scanner.

(** The same operating system with another [shutil.move] and another
    [os.makedirs]. *)
Definition with_move_makedirs {Machine : Type} (O : OS Machine)
    (move : str → str → M Machine unit) (makedirs : str → M Machine unit)
    : OS Machine :=
  {| os_makedirs := makedirs;
     os_path_getsize := @os_path_getsize _ O;
     shutil_move := move;
     open_w := @open_w _ O;
     now_strftime := @now_strftime _ O;
     os_path_relpath := @os_path_relpath _ O;
     os_path_join := @os_path_join _ O;
     os_path_dirname := @os_path_dirname _ O |}.

(** ** Entry point *)

(** The namespace that [parser.parse_args()] returns. *)
Record Args : Type := mkArgs {
  args_move : bool;
  args_min_size : Z;
  args_source : str;
  args_dest : str;
}.

(** The state of a whole run: the world of the fingerprints and the
    state of the planner. *)
Record Run (Machine : Type) : Type := mkRun {
  run_world : World;
  run_plan : Plan Machine;
}.
Arguments mkRun {Machine} _ _.
Arguments run_world {Machine} _.
Arguments run_plan {Machine} _.

Section Main.
Context `{ScanOS} `{Hashlib} {Machine : Type} `{OS Machine}.

(** A computation of the resolver, and one of the planner, in a whole
    run. *)
Definition in_world {A} (m : M World A) : M (Run Machine) A :=
  λ r, let '(x, w) := m (run_world r) in (x, mkRun w (run_plan r)).

Definition in_plan {A} (m : M (Plan Machine) A) : M (Run Machine) A :=
  λ r, let '(x, p) := m (run_plan r) in (x, mkRun (run_world r) p).

(** [g[0]] *)
Definition first_of (g : list str) : result str :=
  match g with
  | [] => Raise (IndexError (py "list index out of range"))
  | p :: _ => Ok p
  end.

(** [main], from the parsed arguments on; what it writes to the log is
    left out, as everywhere. *)
Definition main (args : Args) : M (Run Machine) unit :=
  let dry_run := negb (args_move args) in
  size_map <- scan_files (args_source args) (args_min_size args) ;;
  duplicate_groups <- in_world (find_duplicates size_map) ;;
  match duplicate_groups with
  | [] => ret ()
  | _ :: _ =>
      total_waste <- for_each duplicate_groups (λ g total_waste,
          try_except
            (g0 <- lift (first_of g) ;;
             size <- in_plan (sys (os_path_getsize g0)) ;;
             ret (total_waste + size * (Z.of_nat (length g) - 1))%Z)
            (λ _, ret total_waste)) 0%Z ;;
      report <- in_plan (move_duplicates duplicate_groups (args_dest args)
                           dry_run) ;;
      ret ()
  end.
End Main.

(** ** Concrete instances, to run the program on examples *)

Module Demo.
(** A stand-in for [hashlib]: the bytes in hexadecimal, cut or padded
    with zeros to the width of the digest. *)
Definition hex_digit (n : N) : N :=
  (if n <? 10 then 48 + n else 87 + n)%N.

Definition hex_encode (b : bytes) : str :=
  flat_map (λ x, [hex_digit (Byte.to_N x / 16); hex_digit (Byte.to_N x mod 16)]) b.

Definition padded_hex (width : nat) (b : bytes) : str :=
  take width (hex_encode b ++ replicate width 48%N).

Definition hashlib : Hashlib :=
  {| md5_hexdigest := padded_hex 32; sha256_hexdigest := padded_hex 64 |}.

(** A file system given by a list of readable files. *)
Definition files_of (l : list (str * file)) : str → option file :=
  λ path, dict_get path l.

Definition world_of (l : list (str * file)) : World := mkWorld (files_of l) [].

Definition content (s : string) : bytes := list_byte_of_string s.

(** A small machine with the path rules of Windows: the files it
    holds with their sizes, and the files that cannot be moved. *)
Record nt_machine : Type := NtMachine {
  nt_files : dict str Z;
  nt_locked : list str;
}.

Definition lower (c : N) : N :=
  (if (65 <=? c) && (c <=? 90) then c + 32 else c)%N.

(** [os.path.splitdrive] on a path with a drive letter. *)
Definition splitdrive (p : str) : str * str :=
  match p with
  | d :: 58%N :: rest => ([d; 58%N], rest)
  | _ => ([], p)
  end.

Fixpoint lstrip_sep (p : str) : str :=
  match p with
  | 92%N :: p' => lstrip_sep p'
  | _ => p
  end.

(** [ntpath.relpath] for an absolute path and the root of a drive as
    start: the path below the root, and [ValueError] when the drives
    differ. *)
Definition nt_relpath (path start : str) : result str :=
  let '(path_drive, path_rest) := splitdrive path in
  let '(start_drive, _) := splitdrive start in
  if bool_decide (map lower path_drive = map lower start_drive)
  then Ok (lstrip_sep path_rest)
  else Raise (ValueError (py "path is on mount '" ++ path_drive
                          ++ py "', start on mount '" ++ start_drive
                          ++ py "'")).

Definition nt_join (a b : str) : str := a ++ [92%N] ++ b.

(** [ntpath.dirname]: what stands before the last separator. *)
Fixpoint nt_dirname (p : str) : str :=
  match p with
  | [] => []
  | c :: p' =>
      if existsb (N.eqb 92) p' then c :: nt_dirname p' else []
  end.

Definition nt_getsize (path : str) : M nt_machine Z :=
  λ m, match dict_get path (nt_files m) with
       | Some z => (Ok z, m)
       | None => (Raise (OSError (py "[WinError 2] file not found")), m)
       end.

Definition nt_move (src dst : str) : M nt_machine unit :=
  λ m, if bool_decide (src ∈ nt_locked m)
       then (Raise (OSError (py "[WinError 32] file in use")), m)
       else match dict_get src (nt_files m) with
            | Some z =>
                (Ok (),
                 NtMachine
                   (filter (λ e, e.1 ≠ src) (nt_files m) ++ [(dst, z)])
                   (nt_locked m))
            | None =>
                (Raise (OSError (py "[WinError 2] file not found")), m)
            end.

Definition nt_os : OS nt_machine :=
  {| os_makedirs := λ _, ret ();
     os_path_getsize := nt_getsize;
     shutil_move := nt_move;
     open_w := λ _, ret ();
     now_strftime := ret (py "20260101_120000");
     os_path_relpath := nt_relpath;
     os_path_join := nt_join;
     os_path_dirname := nt_dirname |}.

Definition plan_of (m : nt_machine) : Plan nt_machine := mkPlan m [].

(** Three copies of a one-byte file, and a fourth that cannot be
    read. *)
Definition scenario_world : World :=
  world_of [(py "a.txt", File (content "X") None);
            (py "dir/b.txt", File (content "X") None);
            (py "dir/sub/c.txt", File (content "X") None);
            (py "locked.txt", File (content "X") (Some 0))].

Definition scenario_paths : list str :=
  [py "a.txt"; py "dir/b.txt"; py "dir/sub/c.txt"].

Definition scenario_map : dict Z (list str) := [(1%Z, scenario_paths)].

Definition locked_map : dict Z (list str) :=
  [(1%Z, [py "a.txt"; py "locked.txt"; py "dir/b.txt"; py "dir/sub/c.txt"])].

(** A size map that lists one path twice in its bucket. *)
Definition twice_map : dict Z (list str) :=
  [(1%Z, [py "a.txt"; py "a.txt"])].

(** Two files of one size and different contents, and a copy of the
    first. *)
Definition distinct_world : World :=
  world_of [(py "x.bin", File (content "AAAA") None);
            (py "y.bin", File (content "BBBB") None);
            (py "z.bin", File (content "AAAA") None)].

(** Two zero-byte files. *)
Definition empty_files_world : World :=
  world_of [(py "empty1.log", File [] None); (py "empty2.log", File [] None)].

Definition staging : str := py "L:\find_duplicates\DuplicatesStaging".

(** Two groups of duplicates on drive C; one of the copies is in use
    and cannot be moved. *)
Definition groups_on_C : list (list str) :=
  [[py "C:\data\a.txt"; py "C:\a.txt"; py "C:\data\old\a.txt"];
   [py "C:\b.txt"; py "C:\data\b.txt"]].

Definition machine_C : nt_machine :=
  NtMachine
    [(py "C:\a.txt", 1%Z); (py "C:\data\a.txt", 1%Z);
     (py "C:\data\old\a.txt", 1%Z);
     (py "C:\b.txt", 7%Z); (py "C:\data\b.txt", 7%Z)]
    [py "C:\data\a.txt"].


(** Two groups of duplicates on drive E, the drive scanned by
    default. *)
Definition groups_on_E : list (list str) :=
  [[py "E:\a.txt"; py "E:\data\a.txt"];
   [py "E:\b.txt"; py "E:\data\b.txt"]].

Definition machine_E : nt_machine :=
  NtMachine
    [(py "E:\a.txt", 1%Z); (py "E:\data\a.txt", 1%Z);
     (py "E:\b.txt", 7%Z); (py "E:\data\b.txt", 7%Z)]
    [].

(** [pathlib.PureWindowsPath(p).parts] for a path with backslashes:
    the drive with its root first, then the names. *)
Fixpoint split_sep (cur p : str) : list str :=
  match p with
  | [] => match cur with [] => [] | _ :: _ => [cur] end
  | c :: p' =>
      if (c =? 92)%N
      then match cur with [] => [] | _ :: _ => [cur] end ++ split_sep [] p'
      else split_sep (cur ++ [c]) p'
  end.

Definition nt_parts (p : str) : list str :=
  let '(drive, rest) := splitdrive p in
  match rest with
  | 92%N :: _ => (drive ++ [92%N]) :: split_sep [] rest
  | _ => match drive with
         | [] => split_sep [] rest
         | _ :: _ => drive :: split_sep [] rest
         end
  end.

(** [ntpath.join] of a directory and a name: no second separator
    after a directory that ends with one. *)
Definition nt_join_name (a b : str) : str :=
  match last a with
  | Some 92%N => a ++ b
  | _ => nt_join a b
  end.

(** A file system for the scanner: what the walk of the root finds,
    and the sizes of the files that [os.stat] can reach. *)
Definition scan_os (top : str) (found : tree) (sizes : dict str Z) : ScanOS :=
  {| os_walk := λ p, if decide (p = top) then Some found else None;
     path_parts := nt_parts;
     str_lower := map lower;
     path_join := nt_join_name;
     stat_size := λ p,
       match dict_get p sizes with
       | Some z => Ok z
       | None => Raise (OSError (py "[WinError 5] access is denied"))
       end |}.

(** Drive E: two copies of a one-byte file, a file that cannot be
    reached, an empty file, and files below two folders to skip. *)
Definition tree_E : tree :=
  Node (py "E:\") [py "a.txt"; py "pagefile.sys"]
    [Node (py "E:\data") [py "a.txt"; py "empty.log"; py "b.txt"]
       [Node (py "E:\data\Recovery") [py "a.txt"] []];
     Node (py "E:\Windows") [py "notepad.exe"]
       [Node (py "E:\Windows\Fonts") [py "arial.ttf"] []]].

Definition sizes_E : dict str Z :=
  [(py "E:\a.txt", 1%Z); (py "E:\data\a.txt", 1%Z);
   (py "E:\data\empty.log", 0%Z); (py "E:\data\b.txt", 7%Z);
   (py "E:\data\Recovery\a.txt", 1%Z);
   (py "E:\Windows\notepad.exe", 1%Z);
   (py "E:\Windows\Fonts\arial.ttf", 7%Z)].

Definition scan_os_E : ScanOS := scan_os (py "E:\") tree_E sizes_E.

(** The files of drive E for the resolver. *)
Definition world_E : World :=
  world_of [(py "E:\a.txt", File (content "X") None);
            (py "E:\data\a.txt", File (content "X") None);
            (py "E:\data\empty.log", File [] None);
            (py "E:\data\b.txt", File (content "1234567") None)].

(** What the scan of drive E lists, with the default least size. *)
Definition size_map_E : dict Z (list str) :=
  [(1%Z, [py "E:\a.txt"; py "E:\data\a.txt"]); (7%Z, [py "E:\data\b.txt"])].

(** The same drive with other files below the folders to skip. *)
Definition tree_E_other : tree :=
  Node (py "E:\") [py "a.txt"; py "pagefile.sys"]
    [Node (py "E:\data") [py "a.txt"; py "empty.log"; py "b.txt"]
       [Node (py "E:\data\Recovery") [] []];
     Node (py "E:\Windows") [py "explorer.exe"; py "win.ini"] []].

(** A [shutil.move] that would wipe the machine when asked to move
    anything, and an [os.makedirs] that fails for every path but the
    staging root. *)
Definition wiping_move (src dst : str) : M nt_machine unit :=
  λ _, (Ok (), NtMachine [] []).

Definition staging_only_makedirs (path : str) : M nt_machine unit :=
  if decide (path = staging) then ret ()
  else raise (OSError (py "[WinError 5] access is denied")).

(** A [shutil.move] that loses the file when asked to move one of the
    keepers of the groups on drive C. *)
Definition keeper_losing_move (src dst : str) : M nt_machine unit :=
  if decide (src ∈ [py "C:\a.txt"; py "C:\b.txt"])
  then λ m, (Ok (), NtMachine (filter (λ e, e.1 ≠ src) (nt_files m)) (nt_locked m))
  else nt_move src dst.

(** Drive C for the scanner and the resolver: the files of
    [machine_C]. *)
Definition tree_C : tree :=
  Node (py "C:\") [py "a.txt"; py "b.txt"]
    [Node (py "C:\data") [py "a.txt"; py "b.txt"]
       [Node (py "C:\data\old") [py "a.txt"] []];
     Node (py "C:\Program Files") [py "a.txt"] []].

Definition scan_os_C : ScanOS :=
  scan_os (py "C:\") tree_C
    ((py "C:\Program Files\a.txt", 1%Z) :: nt_files machine_C).

Definition world_C : World :=
  world_of [(py "C:\a.txt", File (content "X") None);
            (py "C:\data\a.txt", File (content "X") None);
            (py "C:\data\old\a.txt", File (content "X") None);
            (py "C:\b.txt", File (content "1234567") None);
            (py "C:\data\b.txt", File (content "1234567") None);
            (py "C:\Program Files\a.txt", File (content "X") None)].

Definition run_C : Run nt_machine := mkRun world_C (plan_of machine_C).



End Demo.

(** * Properties *)

(** ** The order of the sort keys *)

Lemma str_ltb_irrefl a : str_ltb a a = false.
Proof.
  induction a as [|x a IH]; simpl; [done|].
  by rewrite N.ltb_irrefl, N.eqb_refl.
Qed.

Lemma str_ltb_trans a b c :
  str_ltb a b = true → str_ltb b c = true → str_ltb a c = true.
Proof.
  revert b c. induction a as [|x a IH]; intros [|y b] [|z c]; simpl; try done.
  destruct (N.ltb_spec x y), (N.eqb_spec x y),
    (N.ltb_spec y z), (N.eqb_spec y z),
    (N.ltb_spec x z), (N.eqb_spec x z); try done; try lia.
  apply IH.
Qed.

Lemma str_ltb_connex a b :
  str_ltb a b = false → str_ltb b a = false → a = b.
Proof.
  revert b. induction a as [|x a IH]; intros [|y b]; simpl; try done.
  destruct (N.ltb_spec x y), (N.eqb_spec x y),
    (N.ltb_spec y x), (N.eqb_spec y x); try done; try lia.
  intros ??. f_equal; auto.
Qed.

Lemma key_ltb_irrefl k : key_ltb k k = false.
Proof.
  unfold key_ltb. rewrite Nat.ltb_irrefl, Nat.eqb_refl.
  apply str_ltb_irrefl.
Qed.

Lemma key_ltb_trans k1 k2 k3 :
  key_ltb k1 k2 = true → key_ltb k2 k3 = true → key_ltb k1 k3 = true.
Proof.
  destruct k1 as [n1 a], k2 as [n2 b], k3 as [n3 c]. unfold key_ltb; simpl.
  destruct (Nat.ltb_spec n1 n2), (Nat.eqb_spec n1 n2),
    (Nat.ltb_spec n2 n3), (Nat.eqb_spec n2 n3),
    (Nat.ltb_spec n1 n3), (Nat.eqb_spec n1 n3); try done; try lia.
  apply str_ltb_trans.
Qed.

Lemma key_ltb_connex k1 k2 :
  key_ltb k1 k2 = false → key_ltb k2 k1 = false → k1 = k2.
Proof.
  destruct k1 as [n1 a], k2 as [n2 b]. unfold key_ltb; simpl.
  destruct (Nat.ltb_spec n1 n2), (Nat.eqb_spec n1 n2),
    (Nat.ltb_spec n2 n1), (Nat.eqb_spec n2 n1); try done; try lia.
  intros ??. f_equal; [done|]. by apply str_ltb_connex.
Qed.

(** ** [sorted] sorts *)

Section SortedFacts.
Context {A K : Type} (key : A → K) (ltb : K → K → bool).
Hypothesis ltb_irrefl : ∀ k, ltb k k = false.
Hypothesis ltb_trans :
  ∀ k1 k2 k3, ltb k1 k2 = true → ltb k2 k3 = true → ltb k1 k3 = true.
Hypothesis ltb_connex :
  ∀ k1 k2, ltb k1 k2 = false → ltb k2 k1 = false → k1 = k2.

(** [x] does not come after [y]. *)
Definition key_le (x y : A) : Prop := ltb (key y) (key x) = false.

Lemma key_le_refl x : key_le x x.
Proof using ltb_irrefl. apply ltb_irrefl. Qed.

Lemma key_lt_le x y : ltb (key x) (key y) = true → key_le x y.
Proof using ltb_irrefl ltb_trans.
  intros Hxy. unfold key_le.
  destruct (ltb (key y) (key x)) eqn:Hyx; [|done].
  pose proof (ltb_trans _ _ _ Hxy Hyx) as Hxx.
  by rewrite ltb_irrefl in Hxx.
Qed.

Global Instance key_le_trans : Transitive key_le.
Proof using ltb_irrefl ltb_trans ltb_connex.
  intros x y z Hxy Hyz. unfold key_le in *.
  destruct (ltb (key z) (key x)) eqn:Hzx; [|done].
  destruct (ltb (key x) (key y)) eqn:Hlt.
  - by rewrite (ltb_trans _ _ _ Hzx Hlt) in Hyz.
  - rewrite (ltb_connex _ _ Hlt Hxy) in Hzx. congruence.
Qed.

Lemma insort_Permutation x l : insort key ltb x l ≡ₚ x :: l.
Proof.
  induction l as [|y l IH]; simpl; [done|].
  destruct (ltb (key y) (key x)); [|done].
  rewrite IH. apply Permutation_swap.
Qed.

Lemma sorted_Permutation l : sorted key ltb l ≡ₚ l.
Proof.
  induction l as [|x l IH]; simpl; [done|].
  by rewrite insort_Permutation, IH.
Qed.

Lemma insort_Sorted x l :
  Sorted key_le l → Sorted key_le (insort key ltb x l).
Proof using ltb_irrefl ltb_trans.
  induction 1 as [|y l Hl IH Hhd]; simpl.
  { repeat constructor. }
  destruct (ltb (key y) (key x)) eqn:Hyx.
  - constructor; [done|].
    destruct Hhd as [|z l Hyz]; simpl.
    + constructor. by apply key_lt_le.
    + destruct (ltb (key z) (key x)); constructor;
        [done | by apply key_lt_le].
  - constructor; [by constructor|]. by constructor.
Qed.

Lemma sorted_Sorted l : Sorted key_le (sorted key ltb l).
Proof using ltb_irrefl ltb_trans.
  induction l; simpl; [constructor | by apply insort_Sorted].
Qed.

(** The first element of the sorted list precedes every element. *)
Lemma sorted_head_le l x0 rest x :
  sorted key ltb l = x0 :: rest → x ∈ l → key_le x0 x.
Proof using ltb_irrefl ltb_trans ltb_connex.
  intros Hs Hx.
  pose proof (sorted_Sorted l) as Hsorted. rewrite Hs in Hsorted.
  apply Sorted_StronglySorted in Hsorted; [|apply _].
  apply StronglySorted_inv in Hsorted as [_ Hall].
  rewrite <- sorted_Permutation, Hs in Hx.
  apply elem_of_cons in Hx as [->|Hx]; [apply key_le_refl|].
  by eapply Forall_forall in Hall.
Qed.

(** Sorting forgets the order of the input when the keys tell the
    elements apart. *)
Lemma sorted_unique l1 l2 :
  (∀ x y, key x = key y → x = y) →
  l1 ≡ₚ l2 → sorted key ltb l1 = sorted key ltb l2.
Proof using ltb_irrefl ltb_trans ltb_connex.
  intros Hinj Hperm.
  apply (Sorted_unique_strong key_le); try apply sorted_Sorted.
  - intros x y _ _ Hxy Hyx. by apply Hinj, ltb_connex.
  - by rewrite !sorted_Permutation.
Qed.
End SortedFacts.

(** ** Keeper selection *)

Lemma sort_key_inj p q : sort_key p = sort_key q → p = q.
Proof. by intros [= _ ->]. Qed.

Example pick_keeper_scenario :
  pick_keeper [py "dir/sub/c.txt"; py "a.txt"; py "dir/b.txt"]
  = Ok (py "a.txt", [py "dir/b.txt"; py "dir/sub/c.txt"]).
Proof. vm_compute. reflexivity. Qed.

Example pick_keeper_empty :
  pick_keeper [] = Raise (IndexError (py "list index out of range")).
Proof. reflexivity. Qed.

(** Claim C5.  On a non-empty group of distinct paths, [pick_keeper]
    returns a keeper and movers: the keeper is the member that is
    strictly smallest for the key (path length, then the path itself),
    the movers are exactly the other members, and any reordering of the
    group gives the same keeper (and the same movers). *)
Theorem pick_keeper_minimal_deterministic (group : list str) :
  group ≠ [] → NoDup group →
  ∃ keeper movers,
    pick_keeper group = Ok (keeper, movers)
    ∧ keeper ∈ group
    ∧ (∀ p, p ∈ group → p ≠ keeper →
         key_ltb (sort_key keeper) (sort_key p) = true)
    ∧ group ≡ₚ keeper :: movers
    ∧ (∀ p, p ∈ movers ↔ p ∈ group ∧ p ≠ keeper)
    ∧ (∀ group', group' ≡ₚ group → pick_keeper group' = Ok (keeper, movers)).
Proof.
  intros Hne Hnd. unfold pick_keeper.
  pose proof (sorted_Permutation sort_key key_ltb group) as Hperm.
  destruct (sorted sort_key key_ltb group) as [|keeper movers] eqn:Hs.
  { apply Permutation_nil in Hperm. done. }
  exists keeper, movers. split; [done|].
  assert (Hnd' : NoDup (keeper :: movers)) by by rewrite Hperm.
  apply NoDup_cons in Hnd' as [Hnotin _].
  split; [rewrite <- Hperm; left|].
  split.
  { intros p Hp Hpk.
    pose proof (sorted_head_le sort_key key_ltb key_ltb_irrefl key_ltb_trans
                  key_ltb_connex group keeper movers p Hs Hp) as Hle.
    unfold key_le in Hle.
    destruct (key_ltb (sort_key keeper) (sort_key p)) eqn:Hlt; [done|].
    destruct Hpk. by apply sort_key_inj, key_ltb_connex. }
  split; [done|].
  split.
  { intros p. rewrite <- Hperm, elem_of_cons. split.
    - intros Hp. split; [by right|]. by intros ->.
    - intros [[->|Hp] Hpk]; done. }
  intros group' Hperm'.
  rewrite (sorted_unique sort_key key_ltb key_ltb_irrefl key_ltb_trans
             key_ltb_connex group' group sort_key_inj Hperm'), Hs.
  done.
Qed.

Lemma pick_keeper_minimal_deterministic_witness :
  ∃ keeper movers,
    pick_keeper [py "dir/sub/c.txt"; py "a.txt"; py "dir/b.txt"]
    = Ok (keeper, movers)
    ∧ keeper ∈ [py "dir/sub/c.txt"; py "a.txt"; py "dir/b.txt"]
    ∧ (∀ p, p ∈ [py "dir/sub/c.txt"; py "a.txt"; py "dir/b.txt"] →
         p ≠ keeper → key_ltb (sort_key keeper) (sort_key p) = true)
    ∧ [py "dir/sub/c.txt"; py "a.txt"; py "dir/b.txt"] ≡ₚ keeper :: movers
    ∧ (∀ p, p ∈ movers ↔
         p ∈ [py "dir/sub/c.txt"; py "a.txt"; py "dir/b.txt"] ∧ p ≠ keeper)
    ∧ (∀ group',
         group' ≡ₚ [py "dir/sub/c.txt"; py "a.txt"; py "dir/b.txt"] →
         pick_keeper group' = Ok (keeper, movers)).
Proof.
  apply (pick_keeper_minimal_deterministic
           [py "dir/sub/c.txt"; py "a.txt"; py "dir/b.txt"]).
  - discriminate.
  - apply (bool_decide_unpack _). vm_compute. exact I.
Defined.

(** ** Content fingerprinter *)

(** Reading the first [n] bytes of [f] meets the fault. *)
Definition faulty_before (f : file) (n : nat) : Prop :=
  match fault f with
  | Some k => k < n
  | None => False
  end.

Global Instance faulty_before_dec f n : Decision (faulty_before f n).
Proof. unfold faulty_before. destruct (fault f); apply _. Defined.

Lemma f_read_run f pos n w :
  f_read (FileObject f pos) n w =
    let chunk := take n (drop pos (data f)) in
    match fault f with
    | Some k =>
        if bool_decide (pos ≤ k < pos + length chunk)
        then (Raise (OSError (py "read error")), w)
        else (Ok (chunk, FileObject f (pos + length chunk)), w)
    | None => (Ok (chunk, FileObject f (pos + length chunk)), w)
    end.
Proof.
  unfold f_read; simpl. destruct (fault f) as [k|]; [|done].
  by case_bool_decide.
Qed.

Lemma f_read_ok f pos n w :
  ¬ faulty_before f (length (data f)) →
  f_read (FileObject f pos) n w
  = (Ok (take n (drop pos (data f)),
         FileObject f (pos + length (take n (drop pos (data f))))), w).
Proof.
  intros Hok. rewrite f_read_run; cbv zeta.
  unfold faulty_before in Hok. destruct (fault f) as [k|]; [|done].
  rewrite bool_decide_eq_false_2; [done|].
  rewrite length_take, length_drop. lia.
Qed.

Lemma f_read_fault f pos n w k :
  fault f = Some k → pos ≤ k < pos + length (take n (drop pos (data f))) →
  f_read (FileObject f pos) n w = (Raise (OSError (py "read error")), w).
Proof.
  intros Hk Hin. rewrite f_read_run; cbv zeta. rewrite Hk.
  by rewrite bool_decide_eq_true_2.
Qed.

(** The fuel that [full_hash] gives is enough: on a file without a
    fault the loop feeds the hash object everything from the position
    on. *)
Lemma read_chunks_ok fuel f pos cs h w :
  0 < cs → ¬ faulty_before f (length (data f)) →
  length (data f) - pos ≤ fuel →
  read_chunks fuel (FileObject f pos) cs h w
  = (Ok (h ++ drop pos (data f)), w).
Proof.
  intros Hcs Hok. revert pos h.
  induction fuel as [|fuel IH]; intros pos h Hfuel; simpl;
    unfold bind; rewrite f_read_ok by done;
    pose proof (length_take (drop pos (data f)) cs) as Hlen;
    rewrite length_drop in Hlen;
    destruct (take cs (drop pos (data f))) as [|b chunk] eqn:Hchunk;
    simpl in Hlen; try lia.
  - rewrite (drop_ge (data f) pos) by lia. unfold ret. by rewrite app_nil_r.
  - rewrite (drop_ge (data f) pos) by lia. unfold ret. by rewrite app_nil_r.
  - rewrite IH. 2:{ simpl. lia. } unfold hash_update.
    rewrite <- Hchunk, <- (assoc_L (++)).
    rewrite <- (take_drop cs (drop pos (data f))) at 3.
    rewrite drop_drop, length_take, length_drop.
    destruct (decide (cs ≤ length (data f) - pos)).
    + by rewrite Nat.min_l by lia.
    + rewrite Nat.min_r by lia.
      rewrite (drop_ge _ (pos + (_ - _))), (drop_ge _ (pos + cs)) by lia. done.
Qed.

(** The loop raises when the fault lies in what is left to read. *)
Lemma read_chunks_fault fuel f pos cs h w k :
  0 < cs → fault f = Some k → pos ≤ k < length (data f) →
  length (data f) - pos ≤ fuel →
  read_chunks fuel (FileObject f pos) cs h w
  = (Raise (OSError (py "read error")), w).
Proof.
  intros Hcs Hk. revert pos h.
  induction fuel as [|fuel IH]; intros pos h Hin Hfuel; simpl; unfold bind.
  { lia. }
  pose proof (length_take (drop pos (data f)) cs) as Hlen.
  rewrite length_drop in Hlen.
  destruct (decide (k < pos + length (take cs (drop pos (data f))))) as [Hlt|Hge].
  - by rewrite (f_read_fault f pos cs w k Hk) by lia.
  - rewrite f_read_run; cbv zeta. rewrite Hk.
    rewrite bool_decide_eq_false_2 by lia.
    destruct (take cs (drop pos (data f))) as [|b chunk] eqn:Hchunk;
      simpl in Hlen; [lia|].
    apply IH; simpl in *; lia.
Qed.

(** With a chunk size of zero the first read is empty and the loop ends
    at once. *)
Lemma read_chunks_zero fuel f pos h w :
  read_chunks fuel (FileObject f pos) 0 h w = (Ok h, w).
Proof.
  destruct fuel; simpl; unfold bind; rewrite f_read_run; cbv zeta;
    rewrite take_0; simpl; (destruct (fault f); [|done]);
    rewrite bool_decide_eq_false_2; done || lia.
Qed.

(** ** Ordered dictionaries of lists *)

Section DictFacts.
Context {K V : Type} `{EqDecision K}.
Implicit Types (d : dict K (list V)) (k : K) (x : V).

Lemma dict_get_Some_elem_of {W} (d : dict K W) k v :
  dict_get k d = Some v → (k, v) ∈ d.
Proof.
  induction d as [|[k' v'] d IH]; simpl; [done|].
  case_decide as Hk; [intros [= ->]; subst; left | right; auto].
Qed.

Lemma elem_of_dict_get {W} (d : dict K W) k v :
  NoDup d.*1 → (k, v) ∈ d → dict_get k d = Some v.
Proof.
  induction d as [|[k' v'] d IH]; simpl; [by intros _ ?%elem_of_nil|].
  intros [Hk' Hnd]%NoDup_cons [[= -> ->]|Hin]%elem_of_cons.
  - by rewrite decide_True.
  - rewrite decide_False; [auto|]. intros ->.
    apply Hk'. apply list_elem_of_fmap. by exists (k', v).
Qed.

Lemma dict_append_keys k x d :
  (dict_append k x d).*1 = if decide (k ∈ d.*1) then d.*1 else d.*1 ++ [k].
Proof.
  induction d as [|[k' xs] d IH]; csimpl.
  { done. }
  destruct (decide (k = k')) as [->|Hne]; csimpl.
  - clear IH. case_decide as Hin; [done|]. destruct Hin. left.
  - rewrite IH. clear IH.
    destruct (decide (k ∈ d.*1)) as [Hin|Hnin].
    + rewrite decide_True; [done|by right].
    + rewrite decide_False; [done|]. by intros [?|?]%elem_of_cons.
Qed.

Lemma dict_append_NoDup k x d : NoDup d.*1 → NoDup (dict_append k x d).*1.
Proof.
  intros Hnd. rewrite dict_append_keys. case_decide; [done|].
  apply NoDup_app. split_and!; [done| |apply NoDup_singleton].
  intros k' Hk' ->%list_elem_of_singleton. done.
Qed.

Lemma dict_get_append k k' x d :
  dict_get k' (dict_append k x d)
  = if decide (k' = k) then Some (default [] (dict_get k d) ++ [x])
    else dict_get k' d.
Proof.
  induction d as [|[k0 xs] d IH]; simpl.
  { by destruct (decide (k' = k)). }
  destruct (decide (k = k0)) as [->|Hne]; simpl.
  - by destruct (decide (k' = k0)) as [->|?].
  - rewrite IH. destruct (decide (k' = k0)) as [->|?]; [|done].
    by rewrite decide_False by done.
Qed.

Lemma dict_append_values k x d :
  concat (dict_append k x d).*2 ≡ₚ x :: concat d.*2.
Proof.
  induction d as [|[k' xs] d IH]; simpl; [done|].
  destruct (decide (k = k')) as [->|Hne]; simpl.
  - rewrite <- (assoc_L (++)). simpl.
    by rewrite <- Permutation_middle.
  - rewrite IH. by rewrite <- Permutation_middle.
Qed.
End DictFacts.

(** ** Grouping by a fingerprint *)

(** What the two grouping loops of the resolver compute: the paths with
    a non-empty fingerprint, grouped by it in order of first
    occurrence. *)
Section GroupBy.
Context (key : str → str).

Definition group_step (d : dict str (list str)) (p : str)
    : dict str (list str) :=
  if truthy (key p) then dict_append (key p) p d else d.

Definition group_by (l : list str) : dict str (list str) :=
  foldl group_step [] l.

(** The paths of [l] whose fingerprint is [k]. *)
Definition select (k : str) (l : list str) : list str :=
  filter (λ p, key p = k) l.

Lemma group_into_NoDup d l : NoDup d.*1 → NoDup (foldl group_step d l).*1.
Proof.
  revert d. induction l as [|p l IH]; intros d Hd; simpl; [done|].
  apply IH. unfold group_step. destruct (truthy (key p)); [|done].
  by apply dict_append_NoDup.
Qed.

Lemma group_into_get d l k :
  dict_get k (foldl group_step d l)
  = let new := if truthy k then select k l else [] in
    match dict_get k d with
    | Some vs => Some (vs ++ new)
    | None => match new with [] => None | _ :: _ => Some new end
    end.
Proof.
  revert d. induction l as [|p l IH]; intros d; simpl.
  { destruct (truthy k), (dict_get k d); simpl; by rewrite ?app_nil_r. }
  rewrite IH. unfold group_step, select. rewrite filter_cons.
  destruct (truthy (key p)) eqn:Hp.
  - rewrite dict_get_append.
    destruct (decide (k = key p)) as [->|Hne].
    + rewrite Hp, decide_True by done.
      destruct (dict_get (key p) d); simpl; by rewrite <- ?(assoc_L (++)).
    + by rewrite decide_False by done.
  - destruct (decide (key p = k)) as [<-|Hne]; [|done].
    rewrite Hp. done.
Qed.

Lemma group_by_get l k :
  dict_get k (group_by l)
  = if truthy k then
      match select k l with [] => None | _ :: _ => Some (select k l) end
    else None.
Proof. unfold group_by. rewrite group_into_get. by destruct (truthy k). Qed.

Lemma group_by_NoDup l : NoDup (group_by l).*1.
Proof. apply group_into_NoDup. constructor. Qed.

(** The entries of the grouping: one for each non-empty fingerprint
    that occurs, holding the paths that have it, in their order. *)
Lemma elem_of_group_by l k vs :
  (k, vs) ∈ group_by l ↔ truthy k = true ∧ vs = select k l ∧ vs ≠ [].
Proof.
  split.
  - intros Hin%elem_of_dict_get; [|apply group_by_NoDup].
    rewrite group_by_get in Hin.
    destruct (truthy k); [|done].
    destruct (select k l) eqn:Hsel; [done|].
    by injection Hin as <-.
  - intros (Hk & -> & Hne). apply dict_get_Some_elem_of.
    rewrite group_by_get, Hk. by destruct (select k l).
Qed.

Lemma group_into_values d l :
  concat (foldl group_step d l).*2
  ≡ₚ concat d.*2 ++ filter (λ p, truthy (key p) = true) l.
Proof.
  revert d. induction l as [|p l IH]; intros d; simpl.
  { by rewrite app_nil_r. }
  rewrite IH, filter_cons. unfold group_step.
  destruct (truthy (key p)) eqn:Hp.
  - rewrite decide_True by done.
    rewrite dict_append_values. by rewrite <- Permutation_middle.
  - by rewrite decide_False by done.
Qed.

(** Every path is put in at most one list of the grouping. *)
Lemma group_by_values l : concat (group_by l).*2 ⊆+ l.
Proof.
  unfold group_by. rewrite group_into_values. simpl.
  apply sublist_submseteq, sublist_filter.
Qed.
End GroupBy.

(** ** What the fingerprints are *)

(** The world after more fingerprint computations. *)
Definition traced (tr : list call) (w : World) : World :=
  mkWorld (files w) (calls w ++ tr).

Lemma traced_nil w : traced [] w = w.
Proof. destruct w. unfold traced; simpl. by rewrite app_nil_r. Qed.

Lemma traced_traced tr1 tr2 w :
  traced tr2 (traced tr1 w) = traced (tr1 ++ tr2) w.
Proof. unfold traced; simpl. by rewrite (assoc_L (++)). Qed.

(** What [partial_hash] gets to read: the first [chunk_size] bytes,
    unless the file cannot be opened or the read meets a fault. *)
Definition prefix_read (fs : str → option file) (path : str)
    (chunk_size : nat) : option bytes :=
  match fs path with
  | None => None
  | Some f =>
      if decide (faulty_before f (chunk_size `min` length (data f)))
      then None else Some (take chunk_size (data f))
  end.

(** What [full_hash] gets to read: the whole content, unless the file
    cannot be opened or has a fault; nothing at all with a chunk size of
    zero. *)
Definition whole_read (fs : str → option file) (path : str)
    (chunk_size : nat) : option bytes :=
  match fs path with
  | None => None
  | Some f =>
      if decide (chunk_size = 0) then Some []
      else if decide (faulty_before f (length (data f)))
      then None else Some (data f)
  end.

Lemma f_read_no_fault f pos n w :
  ¬ faulty_before f (pos + length (take n (drop pos (data f)))) →
  f_read (FileObject f pos) n w
  = (Ok (take n (drop pos (data f)),
         FileObject f (pos + length (take n (drop pos (data f))))), w).
Proof.
  intros Hok. rewrite f_read_run; cbv zeta.
  unfold faulty_before in Hok. destruct (fault f) as [k|]; [|done].
  by rewrite bool_decide_eq_false_2 by lia.
Qed.

Section FingerprintFacts.
Context `{Hashlib}.

Definition partial_digest (fs : str → option file) (chunk_size : nat)
    (path : str) : str :=
  from_option md5_hexdigest [] (prefix_read fs path chunk_size).

Definition full_digest (fs : str → option file) (chunk_size : nat)
    (path : str) : str :=
  from_option sha256_hexdigest [] (whole_read fs path chunk_size).

Lemma partial_hash_run path cs w :
  partial_hash path cs w
  = (Ok (partial_digest (files w) cs path), traced [PartialHash path] w).
Proof.
  unfold partial_hash, partial_digest, prefix_read, bind, try_except,
    record_call, open_rb, traced; simpl.
  destruct (files w path) as [f|]; simpl; [|done].
  destruct (decide (faulty_before f (cs `min` length (data f)))) as [Hf|Hf].
  - unfold faulty_before in Hf. destruct (fault f) as [k|] eqn:Hk; [|done].
    rewrite (f_read_fault f 0 cs _ k); [done..|].
    rewrite drop_0, length_take. lia.
  - rewrite f_read_no_fault; [done|].
    by rewrite drop_0, length_take.
Qed.

Lemma full_hash_run path cs w :
  full_hash path cs w
  = (Ok (full_digest (files w) cs path), traced [FullHash path] w).
Proof.
  unfold full_hash, full_digest, whole_read, bind, try_except,
    record_call, open_rb, traced; simpl.
  destruct (files w path) as [f|]; simpl; [|done].
  destruct (decide (cs = 0)) as [->|Hcs].
  { by rewrite read_chunks_zero. }
  destruct (decide (faulty_before f (length (data f)))) as [Hf|Hf].
  - unfold faulty_before in Hf. destruct (fault f) as [k|] eqn:Hk; [|done].
    rewrite (read_chunks_fault _ f 0 cs _ _ k) by (done || lia). done.
  - rewrite read_chunks_ok by (done || lia). done.
Qed.
End FingerprintFacts.

(** ** Loops *)

(** A loop whose body never raises, computes [f] on the accumulator
    and only adds to the trace, is a fold. *)
Lemma for_each_traced {X A} (fs : str → option file) (l : list X)
    (body : X → A → M World A) (f : A → X → A) (t : X → list call) :
  (∀ x acc w, files w = fs →
     body x acc w = (Ok (f acc x), traced (t x) w)) →
  ∀ acc w, files w = fs →
    for_each l body acc w = (Ok (foldl f acc l), traced (flat_map t l) w).
Proof.
  intros Hbody. induction l as [|x l IH]; intros acc w Hw; simpl.
  { by rewrite traced_nil. }
  unfold bind. rewrite Hbody by done. rewrite IH by done.
  by rewrite traced_traced.
Qed.

Lemma foldl_app_flat_map {X B} (g : X → list B) (l : list X) (acc : list B) :
  foldl (λ acc x, acc ++ g x) acc l = acc ++ flat_map g l.
Proof.
  revert acc. induction l as [|x l IH]; intros acc; simpl.
  - by rewrite app_nil_r.
  - by rewrite IH, (assoc_L (++)).
Qed.

(** ** The resolver as a function of the file system *)

Section ResolverFacts.
Context `{Hashlib}.
Implicit Types (fs : str → option file) (size_map : dict Z (list str)).

Definition partial_fp fs : str → str := partial_digest fs PARTIAL_CHUNK_SIZE.
Definition full_fp fs : str → str := full_digest fs FULL_CHUNK_SIZE.

(** The groups that come out of one list of paths with the same
    partial fingerprint, and the full fingerprints computed for it. *)
Definition groups_of_plist fs (plist : list str) : list (list str) :=
  if bool_decide (length plist < 2) then []
  else filter (λ g, 2 ≤ length g) (group_by (full_fp fs) plist).*2.

Definition trace_of_plist (plist : list str) : list call :=
  if bool_decide (length plist < 2) then [] else FullHash <$> plist.

(** The same for one size bucket. *)
Definition groups_of_bucket fs (paths : list str) : list (list str) :=
  flat_map (groups_of_plist fs) (group_by (partial_fp fs) paths).*2.

Definition trace_of_bucket fs (paths : list str) : list call :=
  (PartialHash <$> paths)
  ++ flat_map trace_of_plist (group_by (partial_fp fs) paths).*2.

Definition candidates size_map : dict Z (list str) :=
  filter (λ b, 1 < length b.2) size_map.

Definition resolve fs size_map : list (list str) :=
  flat_map (groups_of_bucket fs) (candidates size_map).*2.

Definition trace_of fs size_map : list call :=
  flat_map (trace_of_bucket fs) (candidates size_map).*2.

Lemma flat_map_snd {X Y B} (g : Y → list B) (l : list (X * Y)) :
  flat_map (λ e, g e.2) l = flat_map g l.*2.
Proof. induction l as [|[??] l IH]; simpl; by rewrite ?IH. Qed.

(** [find_duplicates] never raises; it returns [resolve] of the file
    system and leaves the trace of its fingerprint computations. *)
Lemma find_duplicates_run size_map w :
  find_duplicates size_map w
  = (Ok (resolve (files w) size_map),
     traced (trace_of (files w) size_map) w).
Proof.
  unfold find_duplicates, resolve, trace_of. fold (candidates size_map).
  rewrite <- !flat_map_snd.
  rewrite <- (app_nil_l (flat_map _ (candidates size_map))) at 1.
  rewrite <- foldl_app_flat_map.
  apply (for_each_traced (files w)); [|done].
  intros [size paths] dg w1 Hw1; simpl. unfold bind.
  rewrite (for_each_traced (files w) paths _ (group_step (partial_fp (files w)))
             (λ p, [PartialHash p])); [|clear; intros p pm w2 Hw2|done].
  2:{ unfold bind. rewrite partial_hash_run, Hw2. unfold group_step, partial_fp.
      by destruct (truthy _). }
  fold (group_by (partial_fp (files w)) paths).
  unfold trace_of_bucket, groups_of_bucket.
  rewrite <- traced_traced.
  replace (flat_map (λ p, [PartialHash p]) paths) with (PartialHash <$> paths)
    by (clear; induction paths; simpl; by f_equal).
  rewrite <- !flat_map_snd, <- foldl_app_flat_map.
  apply (for_each_traced (files w)); [|done].
  clear. intros [ph plist] dg w2 Hw2; simpl.
  unfold groups_of_plist, trace_of_plist.
  case_bool_decide; simpl.
  { by rewrite traced_nil, app_nil_r. }
  unfold bind.
  rewrite (for_each_traced (files w) plist _ (group_step (full_fp (files w)))
             (λ p, [FullHash p])); [|clear; intros p fm w3 Hw3|done].
  2:{ unfold bind. rewrite full_hash_run, Hw3. unfold group_step, full_fp.
      by destruct (truthy _). }
  fold (group_by (full_fp (files w)) plist).
  replace (flat_map (λ p, [FullHash p]) plist) with (FullHash <$> plist)
    by (clear; induction plist; simpl; by f_equal).
  rewrite (for_each_traced (files w) _ _
             (λ dg e, dg ++ (if bool_decide (2 ≤ length e.2) then [e.2] else []))
             (λ _, [])); [| |done].
  2:{ clear. intros [fh flist] dg w3 _; simpl.
      case_bool_decide; by rewrite traced_nil, ?app_nil_r. }
  rewrite foldl_app_flat_map. f_equal; [|].
  - do 2 f_equal. clear.
    induction (group_by (full_fp (files w)) plist) as [|[fh flist] d IH];
      simpl; [done|].
    rewrite filter_cons, IH. by case_bool_decide; case_decide.
  - replace (flat_map (λ _, []) _) with (@nil call).
    + by rewrite traced_nil.
    + clear. by induction (group_by _ _).
Qed.
End ResolverFacts.

(** ** Lists of lists *)

Lemma elem_of_flat_map {X B} (f : X → list B) (l : list X) (b : B) :
  b ∈ flat_map f l ↔ ∃ x, x ∈ l ∧ b ∈ f x.
Proof.
  induction l as [|x l IH]; simpl.
  { split; [by intros ?%elem_of_nil | by intros (? & ?%elem_of_nil & _)]. }
  rewrite elem_of_app, IH. split.
  - intros [Hb|(y & Hy & Hb)]; [exists x; split; [left|done]|].
    exists y. split; [by right|done].
  - intros (y & [->|Hy]%elem_of_cons & Hb); [by left|].
    right. by exists y.
Qed.

Lemma concat_flat_map {X B} (f : X → list (list B)) (l : list X) :
  concat (flat_map f l) = flat_map (λ x, concat (f x)) l.
Proof.
  induction l as [|x l IH]; simpl; [done|]. by rewrite concat_app, IH.
Qed.

Lemma flat_map_id_concat {B} (ll : list (list B)) : flat_map id ll = concat ll.
Proof. induction ll; simpl; by f_equal. Qed.

Lemma flat_map_submseteq {X B} (f g : X → list B) (l : list X) :
  (∀ x, x ∈ l → f x ⊆+ g x) → flat_map f l ⊆+ flat_map g l.
Proof.
  induction l as [|x l IH]; intros Hfg; simpl; [done|].
  apply submseteq_app; [apply Hfg; left|].
  apply IH. intros y Hy. apply Hfg. by right.
Qed.

Lemma sublist_concat {B} (l1 l2 : list (list B)) :
  l1 `sublist_of` l2 → concat l1 `sublist_of` concat l2.
Proof.
  induction 1 as [|x l1 l2 _ IH|x l1 l2 _ IH]; simpl; [done| |].
  - by apply sublist_app.
  - by apply sublist_inserts_l.
Qed.

Lemma elem_of_concat {B} (ll : list (list B)) (b : B) :
  b ∈ concat ll ↔ ∃ l, l ∈ ll ∧ b ∈ l.
Proof. rewrite <- flat_map_id_concat. apply elem_of_flat_map. Qed.

(** A list of lists holds every element at most once when every list
    does and no two lists share an element. *)
Definition one_place {B} (ll : list (list B)) : Prop :=
  ∀ i j l1 l2 b,
    ll !! i = Some l1 → ll !! j = Some l2 → b ∈ l1 → b ∈ l2 → i = j.

Lemma NoDup_concat {B} (ll : list (list B)) :
  NoDup (concat ll) ↔ Forall NoDup ll ∧ one_place ll.
Proof.
  induction ll as [|l ll IH]; simpl.
  { split; [|intros; constructor].
    intros _. split; [constructor|]. intros i j l1 l2 b Hi.
    by rewrite lookup_nil in Hi. }
  rewrite NoDup_app, IH, Forall_cons. split.
  - intros (Hl & Hdisj & Hall & Hone). split; [done|].
    intros [|i] [|j] l1 l2 b; simpl; intros Hi Hj Hb1 Hb2; simplify_eq; [done| | |].
    + destruct (Hdisj b Hb1). apply elem_of_concat.
      exists l2. split; [by eapply list_elem_of_lookup_2|done].
    + destruct (Hdisj b Hb2). apply elem_of_concat.
      exists l1. split; [by eapply list_elem_of_lookup_2|done].
    + f_equal. by eapply Hone.
  - intros ([Hl Hall] & Hone). split_and!; [done| |done|].
    + intros b Hb (l2 & [j Hj]%list_elem_of_lookup_1 & Hb2)%elem_of_concat.
      by specialize (Hone 0 (S j) l l2 b eq_refl Hj Hb Hb2).
    + intros i j l1 l2 b Hi Hj Hb1 Hb2.
      by specialize (Hone (S i) (S j) l1 l2 b Hi Hj Hb1 Hb2) as [= ->].
Qed.

(** ** The groups and the trace of the resolver *)

(** The paths whose full fingerprint a trace computes, one for each
    computation. *)
Definition full_hashed (tr : list call) : list str :=
  flat_map (λ c, match c with FullHash p => [p] | PartialHash _ => [] end) tr.

Lemma full_hashed_app tr1 tr2 :
  full_hashed (tr1 ++ tr2) = full_hashed tr1 ++ full_hashed tr2.
Proof. apply flat_map_app. Qed.

Lemma full_hashed_partial l : full_hashed (PartialHash <$> l) = [].
Proof. induction l; simpl; done. Qed.

Lemma full_hashed_full l : full_hashed (FullHash <$> l) = l.
Proof. induction l; simpl; by f_equal. Qed.

Lemma full_hashed_flat_map {X} (t : X → list call) (l : list X) :
  full_hashed (flat_map t l) = flat_map (λ x, full_hashed (t x)) l.
Proof.
  induction l as [|x l IH]; simpl; [done|]. by rewrite full_hashed_app, IH.
Qed.

Lemma select_length key k l : length (select key k l) ≤ length l.
Proof. apply length_filter. Qed.

Lemma elem_of_select key k l p : p ∈ select key k l ↔ key p = k ∧ p ∈ l.
Proof. unfold select. by rewrite list_elem_of_filter. Qed.

Lemma select_sublist key k l : select key k l `sublist_of` l.
Proof. apply sublist_filter. Qed.

Section ResolverProps.
Context `{Hashlib}.
Implicit Types (fs : str → option file) (size_map : dict Z (list str)).

Lemma candidates_sublist size_map :
  (candidates size_map).*2 `sublist_of` size_map.*2.
Proof. apply fmap_sublist, sublist_filter. Qed.

Lemma elem_of_candidates size_map paths :
  paths ∈ (candidates size_map).*2
  ↔ 1 < length paths ∧ ∃ size, (size, paths) ∈ size_map.
Proof.
  unfold candidates. rewrite list_elem_of_fmap. split.
  - intros ([size paths'] & -> & [Hlen Hin]%list_elem_of_filter); eauto.
  - intros (Hlen & size & Hin). exists (size, paths). split; [done|].
    by apply list_elem_of_filter.
Qed.

(** A group is emitted exactly when it collects, from one bucket, the
    paths with one non-empty partial and one non-empty full
    fingerprint, and these are at least two. *)
Lemma elem_of_resolve fs size_map g :
  g ∈ resolve fs size_map ↔
  ∃ size paths ph fh,
    (size, paths) ∈ size_map
    ∧ truthy ph = true ∧ truthy fh = true
    ∧ g = select (full_fp fs) fh (select (partial_fp fs) ph paths)
    ∧ 2 ≤ length g.
Proof.
  unfold resolve, groups_of_bucket, groups_of_plist.
  rewrite elem_of_flat_map. setoid_rewrite elem_of_flat_map.
  setoid_rewrite elem_of_candidates. split.
  - intros (paths & (_ & size & Hin) & plist & Hplist & Hg).
    apply list_elem_of_fmap in Hplist as ([ph plist'] & -> & Hp); simpl in *.
    apply elem_of_group_by in Hp as (Hph & -> & _).
    case_bool_decide; [by apply elem_of_nil in Hg|].
    apply list_elem_of_filter in Hg as [Hlen Hg].
    apply list_elem_of_fmap in Hg as ([fh g'] & -> & Hg); simpl in *.
    apply elem_of_group_by in Hg as (Hfh & -> & _).
    by exists size, paths, ph, fh.
  - intros (size & paths & ph & fh & Hin & Hph & Hfh & -> & Hlen).
    pose proof (select_length (full_fp fs) fh
                  (select (partial_fp fs) ph paths)) as Hl1.
    pose proof (select_length (partial_fp fs) ph paths) as Hl2.
    pose proof (Nat.le_trans _ _ _ Hlen Hl1) as Hl3.
    pose proof (Nat.le_trans _ _ _ Hl3 Hl2) as Hl4.
    exists paths. split; [split; [done|by exists size]|].
    exists (select (partial_fp fs) ph paths). split.
    { apply list_elem_of_fmap. exists (ph, select (partial_fp fs) ph paths).
      split; [done|]. apply elem_of_group_by. split_and!; [done..|].
      intros Hnil. rewrite Hnil in Hl3. simpl in Hl3. lia. }
    rewrite bool_decide_eq_false_2 by (apply Nat.le_ngt, Hl3).
    apply list_elem_of_filter. split; [done|].
    apply list_elem_of_fmap.
    exists (fh, select (full_fp fs) fh (select (partial_fp fs) ph paths)).
    split; [done|]. apply elem_of_group_by. split_and!; [done..|].
    intros Hnil. rewrite Hnil in Hlen. simpl in Hlen. lia.
Qed.

Lemma groups_of_plist_values fs plist :
  concat (groups_of_plist fs plist) ⊆+ plist.
Proof.
  unfold groups_of_plist. case_bool_decide; simpl.
  { apply submseteq_nil_l. }
  etrans; [|apply (group_by_values (full_fp fs))].
  apply sublist_submseteq, sublist_concat, sublist_filter.
Qed.

Lemma groups_of_bucket_values fs paths :
  concat (groups_of_bucket fs paths) ⊆+ paths.
Proof.
  unfold groups_of_bucket. rewrite concat_flat_map.
  etrans; [|apply (group_by_values (partial_fp fs))].
  rewrite <- flat_map_id_concat.
  apply flat_map_submseteq. intros plist _. apply groups_of_plist_values.
Qed.

(** The groups take every entry of the size map at most once. *)
Lemma resolve_values fs size_map :
  concat (resolve fs size_map) ⊆+ concat size_map.*2.
Proof.
  unfold resolve. rewrite concat_flat_map.
  etrans; [|apply sublist_submseteq, sublist_concat, candidates_sublist].
  rewrite <- flat_map_id_concat.
  apply flat_map_submseteq. intros paths _. apply groups_of_bucket_values.
Qed.

Lemma trace_of_plist_full_hashed plist :
  full_hashed (trace_of_plist plist) ⊆+ plist.
Proof.
  unfold trace_of_plist. case_bool_decide; simpl.
  { apply submseteq_nil_l. }
  by rewrite full_hashed_full.
Qed.

(** The full fingerprint is computed at most once for every entry of
    the size map. *)
Lemma trace_of_full_hashed fs size_map :
  full_hashed (trace_of fs size_map) ⊆+ concat size_map.*2.
Proof.
  unfold trace_of. rewrite full_hashed_flat_map.
  etrans; [|apply sublist_submseteq, sublist_concat, candidates_sublist].
  rewrite <- flat_map_id_concat.
  apply flat_map_submseteq. intros paths _.
  unfold trace_of_bucket.
  rewrite full_hashed_app, full_hashed_partial, full_hashed_flat_map; simpl.
  etrans; [|apply (group_by_values (partial_fp fs))].
  rewrite <- flat_map_id_concat.
  apply flat_map_submseteq. intros plist _. apply trace_of_plist_full_hashed.
Qed.

(** It is computed only for the paths of a bucket that share a
    non-empty partial fingerprint with another entry of the bucket. *)
Lemma elem_of_trace_of_full_hashed fs size_map p :
  p ∈ full_hashed (trace_of fs size_map) →
  ∃ size paths,
    (size, paths) ∈ size_map
    ∧ p ∈ paths
    ∧ truthy (partial_fp fs p) = true
    ∧ 2 ≤ length (select (partial_fp fs) (partial_fp fs p) paths).
Proof.
  unfold trace_of. rewrite full_hashed_flat_map, elem_of_flat_map.
  intros (paths & (_ & size & Hin)%elem_of_candidates & Hp).
  unfold trace_of_bucket in Hp.
  rewrite full_hashed_app, full_hashed_partial, full_hashed_flat_map in Hp.
  simpl in Hp. apply elem_of_flat_map in Hp as (plist & Hplist & Hp).
  apply list_elem_of_fmap in Hplist as ([ph plist'] & -> & Hpl); simpl in *.
  apply elem_of_group_by in Hpl as (Hph & -> & _).
  unfold trace_of_plist in Hp. case_bool_decide as Hlen.
  { by apply elem_of_nil in Hp. }
  rewrite full_hashed_full in Hp.
  apply elem_of_select in Hp as [<- Hp].
  exists size, paths. split_and!; [done..|lia].
Qed.
End ResolverProps.

(** ** The stand-in for hashlib obeys the laws *)

Lemma padded_hex_length width b : length (Demo.padded_hex width b) = width.
Proof.
  unfold Demo.padded_hex.
  rewrite length_take, length_app, length_replicate. lia.
Qed.

Lemma hex_digit_is_hex n : (n < 16)%N → is_hex_digit (Demo.hex_digit n) = true.
Proof.
  intros Hn. unfold is_hex_digit, Demo.hex_digit.
  destruct (N.ltb_spec n 10);
    repeat match goal with
           | |- context [(?a <=? ?b)%N] => destruct (N.leb_spec a b)
           end; simpl; try done; lia.
Qed.

Lemma padded_hex_hex width b :
  forallb is_hex_digit (Demo.padded_hex width b) = true.
Proof.
  apply forallb_forall. intros c Hc%list_elem_of_In.
  unfold Demo.padded_hex in Hc.
  apply elem_of_take in Hc as (i & Hc & _).
  apply list_elem_of_lookup_2 in Hc.
  apply elem_of_app in Hc as [Hc|Hc].
  - unfold Demo.hex_encode in Hc.
    apply elem_of_flat_map in Hc as (x & _ & Hc).
    pose proof (Byte.to_N_bounded x) as Hx.
    apply elem_of_cons in Hc as [->|Hc].
    { apply hex_digit_is_hex. apply N.Div0.div_lt_upper_bound. lia. }
    apply list_elem_of_singleton in Hc as ->.
    apply hex_digit_is_hex. by apply N.mod_upper_bound.
  - by apply elem_of_replicate in Hc as [-> _].
Qed.

Lemma demo_hashlib_laws : @HashlibLaws Demo.hashlib.
Proof.
  split; simpl; intros b;
    apply padded_hex_length || apply padded_hex_hex.
Qed.

(** ** Fingerprints: failure and success *)

Lemma FULL_CHUNK_SIZE_nonzero : FULL_CHUNK_SIZE ≠ 0.
Proof.
  intros Heq. apply (f_equal (Nat.eqb 0)) in Heq.
  vm_compute in Heq. discriminate.
Qed.

Lemma length_truthy (s : str) n : length s = S n → truthy s = true.
Proof. by destruct s. Qed.

Lemma at_least_two {B} (l : list B) x y : x ∈ l → y ∈ l → x ≠ y → 2 ≤ length l.
Proof.
  destruct l as [|a [|b l]]; simpl; intros Hx Hy Hne; [| |lia].
  - by apply elem_of_nil in Hx.
  - apply list_elem_of_singleton in Hx, Hy. congruence.
Qed.

Lemma filter_all {B} (P : B → Prop) `{∀ x, Decision (P x)} (l : list B) :
  (∀ x, x ∈ l → P x) → filter P l = l.
Proof.
  induction l as [|x l IH]; intros HP; [done|].
  rewrite filter_cons, decide_True by (apply HP; left).
  f_equal. apply IH. intros y Hy. apply HP. by right.
Qed.

Lemma submseteq_NoDup {B} (l k : list B) : l ⊆+ k → NoDup k → NoDup l.
Proof.
  intros [k' Hk]%submseteq_Permutation. rewrite Hk.
  by intros [? _]%NoDup_app.
Qed.

Section Claims.
Context `{Hashlib}.
Implicit Types (size_map : dict Z (list str)) (w : World).

Lemma partial_hash_fst path cs w :
  (partial_hash path cs w).1 = Ok (partial_digest (files w) cs path).
Proof. by rewrite partial_hash_run. Qed.

Lemma full_hash_fst path cs w :
  (full_hash path cs w).1 = Ok (full_digest (files w) cs path).
Proof. by rewrite full_hash_run. Qed.

Lemma partial_fp_truthy fs p f :
  fs p = Some f → truthy (partial_fp fs p) = true →
  partial_fp fs p = md5_hexdigest (take PARTIAL_CHUNK_SIZE (data f)).
Proof.
  unfold partial_fp, partial_digest, prefix_read. intros ->.
  by case_decide.
Qed.

Lemma full_fp_truthy fs p f :
  fs p = Some f → truthy (full_fp fs p) = true →
  full_fp fs p = sha256_hexdigest (data f).
Proof.
  unfold full_fp, full_digest, whole_read. intros ->.
  rewrite decide_False by apply FULL_CHUNK_SIZE_nonzero.
  by case_decide.
Qed.

Lemma partial_fp_readable `{!HashlibLaws} fs p f :
  fs p = Some f → ¬ faulty_before f (length (data f)) →
  partial_fp fs p = md5_hexdigest (take PARTIAL_CHUNK_SIZE (data f))
  ∧ truthy (partial_fp fs p) = true.
Proof.
  unfold partial_fp, partial_digest, prefix_read. intros -> Hok.
  rewrite decide_False.
  - split; [done|]. eapply length_truthy, md5_hexdigest_length.
  - intros Hf. apply Hok. unfold faulty_before in *.
    destruct (fault f); [lia|done].
Qed.

Lemma full_fp_readable `{!HashlibLaws} fs p f :
  fs p = Some f → ¬ faulty_before f (length (data f)) →
  full_fp fs p = sha256_hexdigest (data f)
  ∧ truthy (full_fp fs p) = true.
Proof.
  unfold full_fp, full_digest, whole_read. intros -> Hok.
  rewrite decide_False by apply FULL_CHUNK_SIZE_nonzero.
  rewrite decide_False by done. simpl.
  split; [done|]. eapply length_truthy, sha256_hexdigest_length.
Qed.

(** Claim C1.  [find_duplicates] returns, and every group it returns
    has at least two members, one non-empty full fingerprint that
    [full_hash] gives for every member, and members that all come, in
    order, from one bucket of the size map (so all were listed under
    one size). *)
Theorem find_duplicates_sound size_map w :
  ∃ groups,
    (find_duplicates size_map w).1 = Ok groups
    ∧ ∀ g, g ∈ groups →
        2 ≤ length g
        ∧ (∃ digest, truthy digest = true
             ∧ ∀ p, p ∈ g → (full_hash p FULL_CHUNK_SIZE w).1 = Ok digest)
        ∧ (∃ size paths, (size, paths) ∈ size_map ∧ g `sublist_of` paths).
Proof.
  rewrite find_duplicates_run. eexists. split; [done|].
  intros g (size & paths & ph & fh & Hin & Hph & Hfh & -> & Hlen)
    %elem_of_resolve.
  split; [done|]. split.
  - exists fh. split; [done|]. intros p [Hp _]%elem_of_select.
    rewrite full_hash_fst. by f_equal.
  - exists size, paths. split; [done|].
    etrans; apply select_sublist.
Qed.

(** A file is readable when both fingerprints of it come out
    non-empty. *)
Definition fingerprints_succeed w (p : str) : Prop :=
  ∃ dp df,
    (partial_hash p PARTIAL_CHUNK_SIZE w).1 = Ok dp ∧ truthy dp = true
    ∧ (full_hash p FULL_CHUNK_SIZE w).1 = Ok df ∧ truthy df = true.

(** Claim C2.  Two files listed in the same bucket of the size map,
    with the same content, for both of which the partial and the full
    fingerprint succeed, are members of one and the same returned
    group. *)
Theorem find_duplicates_complete size_map w size paths p q fp fq :
  (size, paths) ∈ size_map → p ∈ paths → q ∈ paths → p ≠ q →
  files w p = Some fp → files w q = Some fq → data fp = data fq →
  fingerprints_succeed w p → fingerprints_succeed w q →
  ∃ groups,
    (find_duplicates size_map w).1 = Ok groups
    ∧ ∃ g, g ∈ groups ∧ p ∈ g ∧ q ∈ g.
Proof.
  intros Hin Hp Hq Hne Hfp Hfq Hdata
    (dp & df & Hdp & Hdpt & Hdf & Hdft)
    (dq & dq' & Hdq & Hdqt & Hdq' & Hdqt').
  rewrite partial_hash_fst in Hdp, Hdq. rewrite full_hash_fst in Hdf, Hdq'.
  injection Hdp as <-. injection Hdq as <-.
  injection Hdf as <-. injection Hdq' as <-.
  fold (partial_fp (files w) p) in Hdpt. fold (partial_fp (files w) q) in Hdqt.
  fold (full_fp (files w) p) in Hdft. fold (full_fp (files w) q) in Hdqt'.
  pose proof (partial_fp_truthy _ _ _ Hfp Hdpt) as Hpp.
  pose proof (partial_fp_truthy _ _ _ Hfq Hdqt) as Hpq.
  pose proof (full_fp_truthy _ _ _ Hfp Hdft) as Hfpp.
  pose proof (full_fp_truthy _ _ _ Hfq Hdqt') as Hfpq.
  rewrite <- Hdata in Hpq, Hfpq.
  rewrite find_duplicates_run. eexists. split; [done|].
  set (g := select (full_fp (files w)) (full_fp (files w) p)
              (select (partial_fp (files w)) (partial_fp (files w) p) paths)).
  assert (Hpg : p ∈ g) by (unfold g; by rewrite !elem_of_select).
  assert (Hqg : q ∈ g).
  { unfold g. rewrite !elem_of_select. split_and!; [congruence..|done]. }
  exists g. split; [|done]. apply elem_of_resolve.
  exists size, paths, (partial_fp (files w) p), (full_fp (files w) p).
  split_and!; [done..|]. by apply (at_least_two g p q).
Qed.

(** Claim C6.  In a bucket of files that all have the content [c],
    of which one, [u], is unreadable (its partial fingerprint is the
    empty string) and the others are readable, the others form a
    returned group as soon as they are two or more; [u] is in no
    returned group, and the run returns. *)
Theorem unreadable_member_excluded `{!HashlibLaws} size_map w size l1 u l2 c :
  (size, l1 ++ u :: l2) ∈ size_map →
  (partial_hash u PARTIAL_CHUNK_SIZE w).1 = Ok [] →
  (∀ p, p ∈ l1 ++ l2 →
     ∃ f, files w p = Some f ∧ data f = c
          ∧ ¬ faulty_before f (length (data f))) →
  2 ≤ length (l1 ++ l2) →
  ∃ groups,
    (find_duplicates size_map w).1 = Ok groups
    ∧ l1 ++ l2 ∈ groups
    ∧ ∀ g, g ∈ groups → u ∉ g.
Proof.
  intros Hin Hu Hrest Hlen.
  rewrite partial_hash_fst in Hu. injection Hu as Hu.
  fold (partial_fp (files w) u) in Hu.
  rewrite find_duplicates_run. eexists. split; [done|]. split.
  - set (ph := md5_hexdigest (take PARTIAL_CHUNK_SIZE c)).
    set (fh := sha256_hexdigest c).
    assert (Hph : truthy ph = true)
      by (eapply length_truthy, md5_hexdigest_length).
    assert (Hfh : truthy fh = true)
      by (eapply length_truthy, sha256_hexdigest_length).
    assert (Hpart : ∀ p, p ∈ l1 ++ l2 → partial_fp (files w) p = ph).
    { intros p (f & Hf & <- & Hok)%Hrest.
      by destruct (partial_fp_readable _ _ _ Hf Hok) as [-> _]. }
    assert (Hfull : ∀ p, p ∈ l1 ++ l2 → full_fp (files w) p = fh).
    { intros p (f & Hf & <- & Hok)%Hrest.
      by destruct (full_fp_readable _ _ _ Hf Hok) as [-> _]. }
    apply elem_of_resolve. exists size, (l1 ++ u :: l2), ph, fh.
    split_and!; [done..| |done].
    assert (Hsel : select (partial_fp (files w)) ph (l1 ++ u :: l2) = l1 ++ l2).
    { unfold select. rewrite filter_app, filter_cons.
      rewrite decide_False by (rewrite Hu; intros <-; done).
      rewrite <- filter_app. apply filter_all, Hpart. }
    rewrite Hsel. unfold select. symmetry. apply filter_all, Hfull.
  - intros g (size' & paths & ph & fh & _ & Hph & _ & -> & _)%elem_of_resolve.
    intros [_ [Hup _]%elem_of_select]%elem_of_select.
    rewrite Hu in Hup. by subst ph.
Qed.

(** Every path is listed in at most one bucket of the size map. *)
Definition each_path_in_one_bucket size_map : Prop :=
  one_place size_map.*2.

(** No path is listed twice in a bucket. *)
Definition each_path_once_in_bucket size_map : Prop :=
  Forall NoDup size_map.*2.

(** The run returns groups in which every path is in at most one
    group, and at most once in it. *)
Definition no_double_counting size_map w : Prop :=
  ∃ groups,
    (find_duplicates size_map w).1 = Ok groups
    ∧ one_place groups ∧ Forall NoDup groups.

(** Claim C3, as amended.  When every path is listed in at most one
    bucket of the size map, and at most once in that bucket, every
    path is in at most one returned group and at most once in it. *)
Theorem find_duplicates_no_double_counting size_map w :
  each_path_in_one_bucket size_map → each_path_once_in_bucket size_map →
  no_double_counting size_map w.
Proof.
  intros Hone Honce. unfold no_double_counting.
  rewrite find_duplicates_run. eexists. split; [done|].
  apply and_comm, NoDup_concat.
  eapply submseteq_NoDup; [apply resolve_values|].
  by apply NoDup_concat.
Qed.

(** The run computes a full fingerprint at most once for a path, and
    only for a path that shares its bucket and its non-empty partial
    fingerprint with another path. *)
Definition full_fingerprint_of_candidates_once size_map w : Prop :=
  ∃ tr,
    calls (find_duplicates size_map w).2 = calls w ++ tr
    ∧ NoDup (full_hashed tr)
    ∧ ∀ p, p ∈ full_hashed tr →
        ∃ size paths q d,
          (size, paths) ∈ size_map ∧ p ∈ paths ∧ q ∈ paths ∧ q ≠ p
          ∧ truthy d = true
          ∧ (partial_hash p PARTIAL_CHUNK_SIZE w).1 = Ok d
          ∧ (partial_hash q PARTIAL_CHUNK_SIZE w).1 = Ok d.

(** Claim C4, as amended.  When every path is listed at most once in
    the size map (in one bucket, once), [find_duplicates] computes the
    full fingerprint at most once for a path, and only for paths that
    share their bucket and their non-empty partial fingerprint with
    another path. *)
Theorem full_hash_once_for_candidates size_map w :
  each_path_in_one_bucket size_map → each_path_once_in_bucket size_map →
  full_fingerprint_of_candidates_once size_map w.
Proof.
  intros Hone Honce. unfold full_fingerprint_of_candidates_once.
  rewrite find_duplicates_run. exists (trace_of (files w) size_map).
  split; [done|]. split.
  { eapply submseteq_NoDup; [apply trace_of_full_hashed|].
    by apply NoDup_concat. }
  intros p (size & paths & Hin & Hp & Hpt & Hlen)%elem_of_trace_of_full_hashed.
  assert (Hnd : NoDup (select (partial_fp (files w)) (partial_fp (files w) p) paths)).
  { eapply sublist_NoDup; [|apply select_sublist].
    eapply Forall_forall in Honce; [done|].
    apply list_elem_of_fmap. by exists (size, paths). }
  destruct (select (partial_fp (files w)) (partial_fp (files w) p) paths)
    as [|a [|b l]] eqn:Hsel; simpl in Hlen; [lia..|].
  assert (Ha : a ∈ select (partial_fp (files w)) (partial_fp (files w) p) paths)
    by (rewrite Hsel; left).
  assert (Hb : b ∈ select (partial_fp (files w)) (partial_fp (files w) p) paths)
    by (rewrite Hsel; right; left).
  apply elem_of_select in Ha as [Hak Ha], Hb as [Hbk Hb].
  apply NoDup_cons in Hnd as [Hab _].
  assert (∃ q, q ∈ paths ∧ q ≠ p ∧ partial_fp (files w) q = partial_fp (files w) p)
    as (q & Hq & Hqp & Hqk).
  { destruct (decide (a = p)) as [->|Hne].
    - exists b. split_and!; [done| |done]. intros ->. apply Hab. left.
    - by exists a. }
  exists size, paths, q, (partial_fp (files w) p).
  rewrite !partial_hash_fst. split_and!; [done..|by f_equal].
Qed.

(** Claim C10.  [partial_hash] and [full_hash] return; the value is
    the empty string exactly when the file could not be opened or
    read, and is otherwise a digest of 32 (64) hexadecimal digits,
    never empty.  A zero-byte file that can be opened gives the digest
    of the empty content, and two such files in a bucket form a
    returned group. *)
Theorem fingerprint_failure_is_empty `{!HashlibLaws} w path chunk_size :
  (∃ dp df,
     (partial_hash path chunk_size w).1 = Ok dp
     ∧ (full_hash path chunk_size w).1 = Ok df
     ∧ (dp = [] ↔ prefix_read (files w) path chunk_size = None)
     ∧ (df = [] ↔ whole_read (files w) path chunk_size = None)
     ∧ (dp ≠ [] → length dp = 32 ∧ forallb is_hex_digit dp = true)
     ∧ (df ≠ [] → length df = 64 ∧ forallb is_hex_digit df = true))
  ∧ (∀ f, files w path = Some f → data f = [] →
       (partial_hash path chunk_size w).1 = Ok (md5_hexdigest [])
       ∧ (full_hash path chunk_size w).1 = Ok (sha256_hexdigest [])
       ∧ md5_hexdigest [] ≠ [] ∧ sha256_hexdigest [] ≠ [])
  ∧ (∀ f other g size,
       files w path = Some f → data f = [] →
       files w other = Some g → data g = [] →
       ∃ groups,
         (find_duplicates [(size, [path; other])] w).1 = Ok groups
         ∧ [path; other] ∈ groups).
Proof.
  assert (Hmd5 : ∀ b, md5_hexdigest b ≠ []).
  { intros b Hb. pose proof (md5_hexdigest_length b) as Hl.
    by rewrite Hb in Hl. }
  assert (Hsha : ∀ b, sha256_hexdigest b ≠ []).
  { intros b Hb. pose proof (sha256_hexdigest_length b) as Hl.
    by rewrite Hb in Hl. }
  split_and!.
  - rewrite partial_hash_fst, full_hash_fst. eexists _, _.
    split; [done|]. split; [done|].
    unfold partial_digest, full_digest.
    destruct (prefix_read _ _ _) as [b|], (whole_read _ _ _) as [b'|];
      simpl; split_and!; try done; try (split; [by intros ?%Hmd5|done]);
      try (split; [by intros ?%Hsha|done]); intros _;
      (split; [apply md5_hexdigest_length || apply sha256_hexdigest_length
              |apply md5_hexdigest_hex || apply sha256_hexdigest_hex]).
  - intros f Hf Hdata. rewrite partial_hash_fst, full_hash_fst.
    unfold partial_digest, full_digest, prefix_read, whole_read.
    rewrite Hf, Hdata. rewrite take_nil.
    rewrite decide_False.
    2:{ unfold faulty_before. destruct (fault f); simpl; lia. }
    split_and!; [done| |done..].
    destruct (decide (chunk_size = 0)); [done|].
    rewrite decide_False; [done|].
    unfold faulty_before. destruct (fault f); simpl; lia.
  - intros f other g size Hf Hdf Hg Hdg.
    rewrite find_duplicates_run. eexists. split; [done|].
    assert (Hok : ∀ h : file, data h = [] → ¬ faulty_before h (length (data h))).
    { intros h Hh. unfold faulty_before. rewrite Hh.
      destruct (fault h); simpl; lia. }
    destruct (partial_fp_readable _ _ _ Hf (Hok f Hdf)) as [Hp1 Hp1t].
    destruct (partial_fp_readable _ _ _ Hg (Hok g Hdg)) as [Hp2 Hp2t].
    destruct (full_fp_readable _ _ _ Hf (Hok f Hdf)) as [Hf1 Hf1t].
    destruct (full_fp_readable _ _ _ Hg (Hok g Hdg)) as [Hf2 Hf2t].
    rewrite Hdf in *. rewrite Hdg in *.
    apply elem_of_resolve.
    exists size, [path; other], (partial_fp (files w) path),
      (full_fp (files w) path).
    split_and!; [left|done|done| |simpl; lia].
    unfold select. rewrite (filter_all _ [path; other]).
    + symmetry. apply filter_all.
      intros x [->|Hx]%elem_of_cons;
        [|apply list_elem_of_singleton in Hx as ->]; congruence.
    + intros x [->|Hx]%elem_of_cons;
        [|apply list_elem_of_singleton in Hx as ->]; congruence.
Qed.
End Claims.

(** ** The resolver on the scenario *)

(** Three copies of one file form one group. *)
Example find_duplicates_scenario :
  (@find_duplicates Demo.hashlib Demo.scenario_map Demo.scenario_world).1
  = Ok [Demo.scenario_paths].
Proof. vm_compute. reflexivity. Qed.

(** Files of one size and different contents are told apart. *)
Example find_duplicates_distinct :
  (@find_duplicates Demo.hashlib [(4%Z, [py "x.bin"; py "y.bin"])]
     Demo.distinct_world).1 = Ok []
  ∧ (@find_duplicates Demo.hashlib [(4%Z, [py "x.bin"; py "y.bin"; py "z.bin"])]
       Demo.distinct_world).1 = Ok [[py "x.bin"; py "z.bin"]].
Proof. split; vm_compute; reflexivity. Qed.

(** A file that cannot be read is left out, the others still form
    their group. *)
Example find_duplicates_locked :
  (@find_duplicates Demo.hashlib Demo.locked_map Demo.scenario_world).1
  = Ok [Demo.scenario_paths].
Proof. vm_compute. reflexivity. Qed.

(** A path listed twice is fingerprinted twice and grouped with
    itself. *)
Example find_duplicates_twice :
  (@find_duplicates Demo.hashlib Demo.twice_map Demo.scenario_world).1
  = Ok [[py "a.txt"; py "a.txt"]]
  ∧ calls (@find_duplicates Demo.hashlib Demo.twice_map Demo.scenario_world).2
    = [PartialHash (py "a.txt"); PartialHash (py "a.txt");
       FullHash (py "a.txt"); FullHash (py "a.txt")].
Proof. split; vm_compute; reflexivity. Qed.

Lemma find_duplicates_complete_witness :
  ∃ groups,
    (@find_duplicates Demo.hashlib Demo.scenario_map Demo.scenario_world).1
    = Ok groups
    ∧ ∃ g, g ∈ groups ∧ py "a.txt" ∈ g ∧ py "dir/b.txt" ∈ g.
Proof.
  apply (@find_duplicates_complete Demo.hashlib Demo.scenario_map
           Demo.scenario_world 1%Z Demo.scenario_paths
           (py "a.txt") (py "dir/b.txt")
           (File (Demo.content "X") None) (File (Demo.content "X") None)).
  - left.
  - left.
  - right. left.
  - discriminate.
  - reflexivity.
  - reflexivity.
  - reflexivity.
  - eexists _, _. split_and!; vm_compute; reflexivity.
  - eexists _, _. split_and!; vm_compute; reflexivity.
Defined.

Lemma unreadable_member_excluded_witness :
  ∃ groups,
    (@find_duplicates Demo.hashlib Demo.locked_map Demo.scenario_world).1
    = Ok groups
    ∧ [py "a.txt"] ++ [py "dir/b.txt"; py "dir/sub/c.txt"] ∈ groups
    ∧ ∀ g, g ∈ groups → py "locked.txt" ∉ g.
Proof.
  apply (@unreadable_member_excluded Demo.hashlib demo_hashlib_laws
           Demo.locked_map Demo.scenario_world 1%Z
           [py "a.txt"] (py "locked.txt")
           [py "dir/b.txt"; py "dir/sub/c.txt"] (Demo.content "X")).
  - left.
  - vm_compute. reflexivity.
  - intros p Hp. exists (File (Demo.content "X") None).
    assert (Hp' : p = py "a.txt" ∨ p = py "dir/b.txt" ∨ p = py "dir/sub/c.txt").
    { repeat (apply elem_of_cons in Hp as [->|Hp]; [tauto|]).
      by apply elem_of_nil in Hp. }
    destruct Hp' as [->|[->| ->]]; (split_and!; [reflexivity..|]);
      unfold faulty_before; simpl; tauto.
  - simpl. lia.
Defined.

Lemma find_duplicates_no_double_counting_witness :
  @no_double_counting Demo.hashlib Demo.scenario_map Demo.scenario_world.
Proof.
  apply (@find_duplicates_no_double_counting Demo.hashlib
           Demo.scenario_map Demo.scenario_world).
  - intros [|i] [|j] l1 l2 b Hi Hj; simpl in *; done.
  - repeat constructor; by apply (bool_decide_unpack _); vm_compute.
Defined.

(** The claim C3 as it stands fails: a path listed twice in its one
    bucket is twice in the returned group. *)
Lemma path_twice_in_bucket_double_counted :
  each_path_in_one_bucket Demo.twice_map
  ∧ ¬ @no_double_counting Demo.hashlib Demo.twice_map Demo.scenario_world.
Proof.
  split.
  - intros [|i] [|j] l1 l2 b Hi Hj; simpl in *; done.
  - intros (groups & Hg & _ & Hnd). vm_compute in Hg. injection Hg as <-.
    apply Forall_cons in Hnd as [Hnd _].
    apply NoDup_cons in Hnd as [Hnotin _]. apply Hnotin. left.
Qed.

Lemma full_hash_once_for_candidates_witness :
  @full_fingerprint_of_candidates_once Demo.hashlib
    Demo.scenario_map Demo.scenario_world.
Proof.
  apply (@full_hash_once_for_candidates Demo.hashlib
           Demo.scenario_map Demo.scenario_world).
  - intros [|i] [|j] l1 l2 b Hi Hj; simpl in *; done.
  - repeat constructor; by apply (bool_decide_unpack _); vm_compute.
Defined.

(** The claim C4 as it stands fails: for a path listed twice in its
    bucket the full fingerprint is computed twice, though no other file
    shares its partial fingerprint. *)
Lemma path_twice_in_bucket_hashed_twice :
  ¬ @full_fingerprint_of_candidates_once Demo.hashlib
      Demo.twice_map Demo.scenario_world.
Proof.
  intros (tr & Htr & Hnd & _). vm_compute in Htr. subst tr.
  apply NoDup_cons in Hnd as [Hnotin _]. apply Hnotin. left.
Qed.

Example zero_byte_files_grouped :
  (@find_duplicates Demo.hashlib [(0%Z, [py "empty1.log"; py "empty2.log"])]
     Demo.empty_files_world).1
  = Ok [[py "empty1.log"; py "empty2.log"]].
Proof. vm_compute. reflexivity. Qed.

Example unreadable_file_fingerprints :
  (@partial_hash Demo.hashlib (py "locked.txt") PARTIAL_CHUNK_SIZE
     Demo.scenario_world).1 = Ok []
  ∧ (@full_hash Demo.hashlib (py "locked.txt") FULL_CHUNK_SIZE
       Demo.scenario_world).1 = Ok []
  ∧ (@full_hash Demo.hashlib (py "missing.txt") FULL_CHUNK_SIZE
       Demo.scenario_world).1 = Ok [].
Proof. split_and!; vm_compute; reflexivity. Qed.

Lemma fingerprint_failure_is_empty_witness :
  (∃ dp df,
     (@partial_hash Demo.hashlib (py "empty1.log") PARTIAL_CHUNK_SIZE
        Demo.empty_files_world).1 = Ok dp
     ∧ (@full_hash Demo.hashlib (py "empty1.log") PARTIAL_CHUNK_SIZE
          Demo.empty_files_world).1 = Ok df
     ∧ (dp = [] ↔ prefix_read (files Demo.empty_files_world)
                     (py "empty1.log") PARTIAL_CHUNK_SIZE = None)
     ∧ (df = [] ↔ whole_read (files Demo.empty_files_world)
                     (py "empty1.log") PARTIAL_CHUNK_SIZE = None)
     ∧ (dp ≠ [] → length dp = 32 ∧ forallb is_hex_digit dp = true)
     ∧ (df ≠ [] → length df = 64 ∧ forallb is_hex_digit df = true))
  ∧ (∀ f, files Demo.empty_files_world (py "empty1.log") = Some f →
       data f = [] →
       (@partial_hash Demo.hashlib (py "empty1.log") PARTIAL_CHUNK_SIZE
          Demo.empty_files_world).1 = Ok (@md5_hexdigest Demo.hashlib [])
       ∧ (@full_hash Demo.hashlib (py "empty1.log") PARTIAL_CHUNK_SIZE
            Demo.empty_files_world).1 = Ok (@sha256_hexdigest Demo.hashlib [])
       ∧ @md5_hexdigest Demo.hashlib [] ≠ []
       ∧ @sha256_hexdigest Demo.hashlib [] ≠ [])
  ∧ (∀ f other g size,
       files Demo.empty_files_world (py "empty1.log") = Some f →
       data f = [] →
       files Demo.empty_files_world other = Some g → data g = [] →
       ∃ groups,
         (@find_duplicates Demo.hashlib [(size, [py "empty1.log"; other])]
            Demo.empty_files_world).1 = Ok groups
         ∧ [py "empty1.log"; other] ∈ groups).
Proof.
  exact (@fingerprint_failure_is_empty Demo.hashlib demo_hashlib_laws
           Demo.empty_files_world (py "empty1.log") PARTIAL_CHUNK_SIZE).
Defined.

(** ** The relocation planner *)

Section PlannerFacts.
Context {Machine : Type} `{OS Machine}.
Implicit Types (s : Plan Machine) (r : row).

(** [m] only adds rows to the report, and every row it adds
    satisfies [P], whether it returns or raises. *)
Definition writes {A} (P : row → Prop) (m : M (Plan Machine) A) : Prop :=
  ∀ s, ∃ new, report (m s).2 = report s ++ new ∧ Forall P new.

Lemma writes_ret {A} P (a : A) : writes P (ret a).
Proof. intros s. exists []. by rewrite app_nil_r. Qed.

Lemma writes_lift {A} P (x : result A) : writes P (lift x).
Proof. intros s. exists []. by rewrite app_nil_r. Qed.

Lemma writes_sys {A} P (m : M Machine A) : writes P (sys m).
Proof.
  intros s. exists []. unfold sys. destruct (m (machine s)); simpl.
  by rewrite app_nil_r.
Qed.

Lemma writes_writerow P r : P r → writes P (writerow r).
Proof. intros Hr s. exists [r]. split; [done|]. by constructor. Qed.

Lemma writes_bind {A B} P (m : M (Plan Machine) A) (k : A → M (Plan Machine) B) :
  writes P m → (∀ a, writes P (k a)) → writes P (bind m k).
Proof.
  intros Hm Hk s. unfold bind. destruct (Hm s) as (new1 & Hr1 & HP1).
  destruct (m s) as [[a|e] s1]; simpl in *.
  - destruct (Hk a s1) as (new2 & Hr2 & HP2).
    exists (new1 ++ new2). rewrite Hr2, Hr1, (assoc_L (++)).
    split; [done|]. by apply Forall_app.
  - by exists new1.
Qed.

Lemma writes_try_except {A} P (m : M (Plan Machine) A) handler :
  writes P m → (∀ e, writes P (handler e)) → writes P (try_except m handler).
Proof.
  intros Hm Hh s. unfold try_except. destruct (Hm s) as (new1 & Hr1 & HP1).
  destruct (m s) as [[a|e] s1]; simpl in *; [by exists new1|].
  destruct (is_OSError e); [|by exists new1].
  destruct (Hh e s1) as (new2 & Hr2 & HP2).
  exists (new1 ++ new2). rewrite Hr2, Hr1, (assoc_L (++)).
  split; [done|]. by apply Forall_app.
Qed.

Lemma writes_for_each {X A} P (l : list X) (body : X → A → M (Plan Machine) A) acc :
  (∀ x acc, writes P (body x acc)) → writes P (for_each l body acc).
Proof.
  intros Hbody. revert acc. induction l as [|x l IH]; intros acc; simpl.
  - apply writes_ret.
  - apply writes_bind; [apply Hbody|apply IH].
Qed.












End PlannerFacts.

(** ** Rows and groups *)


(** A [WOULD_MOVE], [MOVED] or [ERROR] row of group [gid] for [src]. *)
Definition is_mover_row (gid : nat) (src : str) (r : row) : bool :=
  match r with
  | [CInt g; CStr action; CStr original; CStr _; CInt _] =>
      (g =? Z.of_nat gid)%Z && bool_decide (original = src)
      && bool_decide (action ∈ [py "WOULD_MOVE"; py "MOVED"; py "ERROR"])
  | _ => false
  end.



(** A row of group [gid]. *)
Definition is_row_of (gid : nat) (r : row) : bool :=
  match r with
  | CInt g :: _ => (g =? Z.of_nat gid)%Z
  | _ => false
  end.


Lemma is_mover_row_of gid src r :
  is_mover_row gid src r = true → is_row_of gid r = true.
Proof.
  destruct r as [|[g|?] [|[?|a] [|[?|?] [|[?|?] [|[?|?] [|??]]]]]]; simpl; try done.
  by intros [[? _]%andb_true_iff _]%andb_true_iff.
Qed.


Lemma filter_nil_iff {B} (P : B → Prop) `{∀ x, Decision (P x)} (l : list B) :
  filter P l = [] ↔ ∀ x, x ∈ l → ¬ P x.
Proof.
  split.
  - intros Hnil x Hx HP.
    assert (Hin : x ∈ filter P l) by by apply list_elem_of_filter.
    rewrite Hnil in Hin. by apply elem_of_nil in Hin.
  - intros Hall. induction l as [|x l IH]; [done|].
    rewrite filter_cons, decide_False by (apply Hall; left).
    apply IH. intros y Hy. apply Hall. by right.
Qed.

Section Blocks.
Context {Machine : Type} `{OS Machine}.






End Blocks.


(** ** The start of the relative paths *)

Lemma for_each_ext {S X A} (l : list X) (body1 body2 : X → A → M S A) acc s :
  (∀ x acc s, body1 x acc s = body2 x acc s) →
  for_each l body1 acc s = for_each l body2 acc s.
Proof.
  intros Hb. revert acc s. induction l as [|x l IH]; intros acc s; simpl; [done|].
  unfold bind. rewrite Hb. destruct (body2 x acc s) as [[a|e] s1]; [apply IH|done].
Qed.



(** ** The planner on concrete plans *)

Example dry_run_on_C :
  (@move_duplicates _ Demo.nt_os Demo.groups_on_C Demo.staging true
     (Demo.plan_of Demo.machine_C)).1
  = Ok (py "L:\find_duplicates\duplicate_report_20260101_120000.csv")
  ∧ report (@move_duplicates _ Demo.nt_os Demo.groups_on_C Demo.staging true
              (Demo.plan_of Demo.machine_C)).2
    = [HEADER;
       [CInt 1; CStr (py "KEEP"); CStr (py "C:\a.txt"); CStr []; CInt 1];
       [CInt 1; CStr (py "WOULD_MOVE"); CStr (py "C:\data\a.txt");
        CStr (py "L:\find_duplicates\DuplicatesStaging\data\a.txt"); CInt 1];
       [CInt 1; CStr (py "WOULD_MOVE"); CStr (py "C:\data\old\a.txt");
        CStr (py "L:\find_duplicates\DuplicatesStaging\data\old\a.txt");
        CInt 1];
       [CInt 2; CStr (py "KEEP"); CStr (py "C:\b.txt"); CStr []; CInt 7];
       [CInt 2; CStr (py "WOULD_MOVE"); CStr (py "C:\data\b.txt");
        CStr (py "L:\find_duplicates\DuplicatesStaging\data\b.txt"); CInt 7]].
Proof. split; vm_compute; reflexivity. Qed.

(** A file in use: its move fails, the failure becomes an [ERROR] row,
    and the movers and groups after it are still processed. *)
Example live_run_on_C :
  (@move_duplicates _ Demo.nt_os Demo.groups_on_C Demo.staging false
     (Demo.plan_of Demo.machine_C)).1
  = Ok (py "L:\find_duplicates\duplicate_report_20260101_120000.csv")
  ∧ report (@move_duplicates _ Demo.nt_os Demo.groups_on_C Demo.staging false
              (Demo.plan_of Demo.machine_C)).2
    = [HEADER;
       [CInt 1; CStr (py "KEEP"); CStr (py "C:\a.txt"); CStr []; CInt 1];
       [CInt 1; CStr (py "ERROR"); CStr (py "C:\data\a.txt");
        CStr (py "[WinError 32] file in use"); CInt 1];
       [CInt 1; CStr (py "MOVED"); CStr (py "C:\data\old\a.txt");
        CStr (py "L:\find_duplicates\DuplicatesStaging\data\old\a.txt");
        CInt 1];
       [CInt 2; CStr (py "KEEP"); CStr (py "C:\b.txt"); CStr []; CInt 7];
       [CInt 2; CStr (py "MOVED"); CStr (py "C:\data\b.txt");
        CStr (py "L:\find_duplicates\DuplicatesStaging\data\b.txt"); CInt 7]].
Proof. split; vm_compute; reflexivity. Qed.



Section Unwinding.
Context {Machine : Type} `{OS Machine}.

(** Where no path relative to "C:\" exists, the body of the loop over
    the movers raises what [os.path.relpath] raises: nothing is
    written and nothing is caught. *)
Lemma move_duplicates_mover_relpath_raises gid size dest_root dry_run src acc e
    (s : Plan Machine) :
  os_path_relpath src (py "C:\") = Raise e →
  move_duplicates_mover gid size dest_root dry_run src acc s = (Raise e, s).
Proof.
  intros He. unfold move_duplicates_mover. destruct acc as [moved freed].
  unfold bind at 1. unfold lift. fold RELPATH_START in He. by rewrite He.
Qed.

(** A loop stops at the first body that raises. *)
Lemma for_each_raises {S X A} (x : X) (l : list X) (body : X → A → M S A)
    acc e (s s' : S) :
  body x acc s = (Raise e, s') →
  for_each (x :: l) body acc s = (Raise e, s').
Proof. intros Hb. simpl. unfold bind. by rewrite Hb. Qed.

End Unwinding.

(** Claim C8.  The destination of a mover is computed before the
    [try] that guards its move.  When [os.path.relpath] raises for the
    first mover of the first group (as it does, with [ValueError], for
    a path that is not on drive C), [move_duplicates] raises the same
    exception: the report then holds the header and the [KEEP] row of
    that group and nothing else, so the mover has no row and the groups
    that follow are not processed, in a dry run as in live mode. *)
Theorem relpath_failure_unwinds_run {Machine : Type} `{OS Machine}
    group groups dest_root dry_run (s : Plan Machine)
    keeper src movers size e timestamp m1 m2 m3 m4 :
  os_makedirs dest_root (machine s) = (Ok (), m1) →
  now_strftime m1 = (Ok timestamp, m2) →
  open_w (str_replace REPORT_CSV (py ".csv")
            (py "_" ++ timestamp ++ py ".csv")) m2 = (Ok (), m3) →
  pick_keeper group = Ok (keeper, src :: movers) →
  os_path_getsize keeper m3 = (Ok size, m4) →
  os_path_relpath src (py "C:\") = Raise e →
  move_duplicates (group :: groups) dest_root dry_run s
  = (Raise e,
     mkPlan m4
       (report s ++
        [HEADER;
         [CInt 1; CStr (py "KEEP"); CStr keeper; CStr []; CInt size]])).
Proof.
  intros Hmk Hnow Hopen Hpick Hsize Hrel.
  unfold move_duplicates, bind, sys, writerow.
  rewrite Hmk. cbn [machine report]. rewrite Hnow. cbn [machine report].
  rewrite Hopen. cbn [machine report enumerate].
  erewrite for_each_raises; [done|].
  unfold move_duplicates_group, bind, lift, try_except, sys, ret, writerow.
  rewrite Hpick. cbn [machine report]. rewrite Hsize. cbn [machine report].
  erewrite for_each_raises;
    [|by apply move_duplicates_mover_relpath_raises].
  by rewrite <- (assoc_L (++)).
Qed.

(** On the drive scanned by default: two groups on drive E, every file
    in place and movable.  The run raises at the first mover; no file
    has moved and the second group has no row. *)
Lemma relpath_failure_unwinds_run_witness :
  @move_duplicates _ Demo.nt_os Demo.groups_on_E Demo.staging false
    (Demo.plan_of Demo.machine_E)
  = (Raise (ValueError (py "path is on mount 'E:', start on mount 'C:'")),
     mkPlan Demo.machine_E
       (report (Demo.plan_of Demo.machine_E) ++
        [HEADER;
         [CInt 1; CStr (py "KEEP"); CStr (py "E:\a.txt"); CStr []; CInt 1]])).
Proof.
  apply (@relpath_failure_unwinds_run _ Demo.nt_os
           [py "E:\a.txt"; py "E:\data\a.txt"]
           [[py "E:\b.txt"; py "E:\data\b.txt"]]
           Demo.staging false (Demo.plan_of Demo.machine_E)
           (py "E:\a.txt") (py "E:\data\a.txt") [] 1%Z
           (ValueError (py "path is on mount 'E:', start on mount 'C:'"))
           (py "20260101_120000")
           Demo.machine_E Demo.machine_E Demo.machine_E Demo.machine_E);
    vm_compute; reflexivity.
Defined.


(** * The size bucketer, and the program as a whole *)

(** ** Loops *)

Lemma for_each_app {S X A} (l1 l2 : list X) (body : X → A → M S A) acc s :
  for_each (l1 ++ l2) body acc s
  = bind (for_each l1 body acc) (for_each l2 body) s.
Proof.
  revert acc s. induction l1 as [|x l1 IH]; intros acc s; simpl; [done|].
  unfold bind in *. destruct (body x acc s) as [[a|e] s1]; [apply IH|done].
Qed.

Lemma for_each_fmap {S X Y A} (f : X → Y) (l : list X) (body : Y → A → M S A) acc s :
  for_each (f <$> l) body acc s = for_each l (λ x, body (f x)) acc s.
Proof.
  revert acc s. induction l as [|x l IH]; intros acc s; simpl; [done|].
  unfold bind. destruct (body (f x) acc s) as [[a|e] s1]; [apply IH|done].
Qed.

(** ** Buckets by an optional key *)

Section Buckets.
Context {K V : Type} `{EqDecision K} (key : V → option K).

(** One more value: into the bucket of its key, when it has one. *)
Definition bucket_into (d : dict K (list V)) (x : V) : dict K (list V) :=
  match key x with
  | Some k => dict_append k x d
  | None => d
  end.

Definition buckets (l : list V) : dict K (list V) := foldl bucket_into [] l.

Lemma bucket_all_NoDup d l : NoDup d.*1 → NoDup (foldl bucket_into d l).*1.
Proof.
  revert d. induction l as [|x l IH]; intros d Hd; simpl; [done|].
  apply IH. unfold bucket_into. destruct (key x); [|done].
  by apply dict_append_NoDup.
Qed.

Lemma bucket_all_get d l k :
  dict_get k (foldl bucket_into d l)
  = let new := filter (λ x, key x = Some k) l in
    match dict_get k d with
    | Some vs => Some (vs ++ new)
    | None => match new with [] => None | _ :: _ => Some new end
    end.
Proof.
  revert d. induction l as [|x l IH]; intros d; simpl.
  { destruct (dict_get k d); simpl; by rewrite ?app_nil_r. }
  rewrite IH. unfold bucket_into. rewrite filter_cons.
  destruct (key x) as [k'|] eqn:Hx.
  - rewrite dict_get_append.
    destruct (decide (k = k')) as [->|Hne].
    + rewrite decide_True by done.
      destruct (dict_get k' d); simpl; by rewrite <- ?(assoc_L (++)).
    + rewrite decide_False by congruence. done.
  - by rewrite decide_False by done.
Qed.

Lemma buckets_NoDup l : NoDup (buckets l).*1.
Proof. apply bucket_all_NoDup. constructor. Qed.

Lemma elem_of_buckets l k vs :
  (k, vs) ∈ buckets l ↔ vs = filter (λ x, key x = Some k) l ∧ vs ≠ [].
Proof.
  split.
  - intros Hin%elem_of_dict_get; [|apply buckets_NoDup].
    unfold buckets in Hin. rewrite bucket_all_get in Hin. simpl in Hin.
    destruct (filter _ l) eqn:Hsel; [done|]. by injection Hin as <-.
  - intros [-> Hne]. apply dict_get_Some_elem_of.
    unfold buckets. rewrite bucket_all_get. simpl.
    by destruct (filter _ l).
Qed.

Lemma bucket_all_values d l :
  concat (foldl bucket_into d l).*2
  ≡ₚ concat d.*2 ++ filter (λ x, is_Some (key x)) l.
Proof.
  revert d. induction l as [|x l IH]; intros d; simpl.
  { by rewrite app_nil_r. }
  rewrite IH, filter_cons. unfold bucket_into.
  destruct (key x) as [k|] eqn:Hx.
  - rewrite decide_True by done.
    rewrite dict_append_values. by rewrite <- Permutation_middle.
  - rewrite decide_False; [done|]. by intros [? ?].
Qed.

Lemma buckets_values l :
  concat (buckets l).*2 ≡ₚ filter (λ x, is_Some (key x)) l.
Proof. unfold buckets. by rewrite bucket_all_values. Qed.
End Buckets.

(** ** The walk *)

Lemma tree_induction (P : tree → Prop) :
  (∀ dirpath filenames subdirs,
     Forall P subdirs → P (Node dirpath filenames subdirs)) →
  ∀ t, P t.
Proof.
  intros IH. fix rec 1. intros [dirpath filenames subdirs]. apply IH.
  induction subdirs as [|c cs IHcs]; constructor; [apply rec|apply IHcs].
Qed.

Section ScannerFacts.
Context `{ScanOS}.

(** The directories in which the scan looks at the files, in the order
    of the walk, each with its file names: those that are not to be
    skipped and lie below no directory that is. *)
Fixpoint scanned_dirs (t : tree) : list (str * list str) :=
  match t with
  | Node dirpath filenames subdirs =>
      if should_skip dirpath then []
      else (dirpath, filenames) :: flat_map scanned_dirs subdirs
  end.

(** The paths that the scan forms, in order. *)
Definition paths_in (d : str * list str) : list str := path_join d.1 <$> d.2.

Definition scanned_paths (t : tree) : list str :=
  flat_map paths_in (scanned_dirs t).

(** The size under which the scan lists a path, if it lists it. *)
Definition listed_size (min_size : Z) (fpath : str) : option Z :=
  match stat_size fpath with
  | Ok st_size => if (min_size <=? st_size)%Z then Some st_size else None
  | Raise _ => None
  end.

(** [os.stat] raises for the path something that the scan does not
    catch. *)
Definition stat_uncaught (fpath : str) : Prop :=
  match stat_size fpath with
  | Ok _ => False
  | Raise e => is_OSError e = false
  end.

Global Instance stat_uncaught_dec fpath : Decision (stat_uncaught fpath).
Proof. unfold stat_uncaught. destruct (stat_size fpath); apply _. Defined.

Context {S : Type}.
Implicit Types (s : S) (acc : dict Z (list str) * nat).

(** The body of the inner loop, on the path it forms. *)
Definition scan_path (min_size : Z) (fpath : str) acc
    : M S (dict Z (list str) * nat) :=
  match stat_size fpath with
  | Ok st_size =>
      if (min_size <=? st_size)%Z
      then ret (dict_append st_size fpath acc.1, acc.2 + 1)
      else ret acc
  | Raise e => if is_OSError e then ret acc else raise e
  end.

Lemma scan_files_file_path min_size dirpath fname acc s :
  scan_files_file min_size dirpath fname acc s
  = scan_path min_size (path_join dirpath fname) acc s.
Proof.
  unfold scan_files_file, scan_path, try_except, bind, lift, ret, raise.
  destruct acc as [size_map file_count]; simpl.
  destruct (stat_size _) as [st_size|e]; [by destruct (_ <=? _)%Z|].
  by destruct (is_OSError e).
Qed.

Definition scan_body (min_size : Z) (dirpath : str) (filenames : list str)
    acc : M S (bool * (dict Z (list str) * nat)) :=
  if should_skip dirpath then ret (true, acc)
  else
    acc <- for_each filenames (scan_files_file min_size dirpath) acc ;;
    ret (false, acc).

(** The walk with the body of [scan_files] is one loop over the paths
    of the directories that are not pruned. *)
Lemma walk_each_scan min_size t acc s :
  walk_each t (scan_body min_size) acc s
  = for_each (scanned_paths t) (scan_path min_size) acc s.
Proof.
  revert acc s. induction t as [dirpath filenames subdirs IH] using tree_induction; intros acc s.
  unfold scanned_paths. cbn [walk_each scanned_dirs]. unfold scan_body at 1.
  destruct (should_skip dirpath); [done|].
  cbn [flat_map]. rewrite for_each_app. unfold paths_in at 1; cbn [fst snd].
  unfold bind at 1 2 4.
  rewrite for_each_fmap.
  rewrite (for_each_ext _ _ (λ x, scan_path min_size (path_join dirpath x)))
    by apply scan_files_file_path.
  destruct (for_each filenames _ acc s) as [[acc1|e] s1]; [|done].
  unfold ret at 1. clear acc s. revert acc1 s1.
  induction IH as [|c cs Hc _ IHcs]; intros acc s; [done|].
  cbn [flat_map]. rewrite flat_map_app, for_each_app. unfold bind at 1 3.
  rewrite Hc. fold (scanned_paths c).
  destruct (for_each (scanned_paths c) _ acc s) as [[acc1|e] s1]; [|done].
  apply IHcs.
Qed.

(** The loop over the paths: it returns the buckets when no [os.stat]
    raises something uncaught, and raises otherwise; the state is left
    as it was. *)
Lemma scan_paths_returns min_size l acc s :
  Forall (λ p, ¬ stat_uncaught p) l →
  for_each l (scan_path min_size) acc s
  = (Ok (foldl (bucket_into (listed_size min_size)) acc.1 l,
         acc.2 + length (filter (λ p, is_Some (listed_size min_size p)) l)),
     s).
Proof.
  intros Hl. revert acc. induction Hl as [|p l Hp _ IH]; intros acc.
  { simpl. unfold ret. destruct acc. by rewrite Nat.add_0_r. }
  assert (Hstep : scan_path min_size p acc s
                  = (Ok match listed_size min_size p with
                        | Some k => (dict_append k p acc.1, acc.2 + 1)
                        | None => acc
                        end, s)).
  { unfold scan_path, listed_size, ret.
    destruct (stat_size p) as [st_size|e] eqn:Hstat;
      [by destruct (_ <=? _)%Z|].
    destruct (is_OSError e) eqn:He; [done|]. destruct Hp.
    unfold stat_uncaught. by rewrite Hstat. }
  cbn [for_each foldl]. rewrite filter_cons. unfold bind.
  rewrite Hstep, IH.
  destruct (listed_size min_size p) as [k|] eqn:Hk.
  - replace (bucket_into (listed_size min_size) acc.1 p)
      with (dict_append k p acc.1) by (unfold bucket_into; by rewrite Hk).
    rewrite decide_True by done. cbn [fst snd length]. do 3 f_equal. lia.
  - replace (bucket_into (listed_size min_size) acc.1 p)
      with acc.1 by (unfold bucket_into; by rewrite Hk).
    rewrite decide_False by (by intros [??]). done.
Qed.

Lemma scan_paths_raises min_size l acc s :
  ¬ Forall (λ p, ¬ stat_uncaught p) l →
  ∃ e, for_each l (scan_path min_size) acc s = (Raise e, s).
Proof.
  revert acc. induction l as [|p l IH]; intros acc Hl.
  { destruct Hl. constructor. }
  simpl. unfold bind. unfold scan_path at 1.
  destruct (stat_size p) as [st_size|e] eqn:Hstat.
  - assert (Hp : ¬ stat_uncaught p)
      by (unfold stat_uncaught; rewrite Hstat; tauto).
    destruct (min_size <=? st_size)%Z; unfold ret; apply IH;
      contradict Hl; by constructor.
  - destruct (is_OSError e) eqn:He.
    + unfold ret. apply IH. contradict Hl. constructor; [|done].
      unfold stat_uncaught. rewrite Hstat. congruence.
    + by exists e.
Qed.

(** What the walk of the root finds, as far as the scan looks. *)
Definition scanned (source_root : str) : list str :=
  match os_walk source_root with
  | None => []
  | Some top => scanned_paths top
  end.

Lemma scan_files_loop source_root min_size s :
  scan_files source_root min_size s
  = (acc <- for_each (scanned source_root) (scan_path min_size) ([], 0) ;;
     ret acc.1) s.
Proof.
  unfold scan_files, scanned. unfold bind.
  destruct (os_walk source_root) as [top|]; [|done].
  change (walk_each top _ ([], 0) s)
    with (walk_each top (scan_body min_size) ([], 0) s).
  by rewrite walk_each_scan.
Qed.

Lemma scan_files_run source_root min_size s :
  Forall (λ p, ¬ stat_uncaught p) (scanned source_root) →
  scan_files source_root min_size s
  = (Ok (buckets (listed_size min_size) (scanned source_root)), s).
Proof.
  intros Hl. rewrite scan_files_loop. unfold bind.
  by rewrite scan_paths_returns.
Qed.

Lemma scan_files_returns_inv source_root min_size s size_map s' :
  scan_files source_root min_size s = (Ok size_map, s') →
  s' = s ∧ size_map = buckets (listed_size min_size) (scanned source_root).
Proof.
  destruct (decide (Forall (λ p, ¬ stat_uncaught p) (scanned source_root)))
    as [Hl|Hl].
  - rewrite scan_files_run by done. by intros [= <- <-].
  - rewrite scan_files_loop. unfold bind.
    destruct (scan_paths_raises min_size _ ([], 0) s Hl) as [e ->]. done.
Qed.
End ScannerFacts.

(** ** What the scan lists *)

Global Instance exn_eq_dec : EqDecision exn.
Proof. solve_decision. Defined.

Global Instance result_eq_dec {A} `{EqDecision A} : EqDecision (result A).
Proof. solve_decision. Defined.

Section ScannerProps.
Context `{ScanOS}.

Lemma listed_size_Some min_size p size :
  listed_size min_size p = Some size
  ↔ stat_size p = Ok size ∧ (min_size ≤ size)%Z.
Proof.
  unfold listed_size. destruct (stat_size p) as [st_size|e].
  - destruct (Z.leb_spec min_size st_size); split.
    + by intros [= <-].
    + by intros [[= <-] _].
    + done.
    + intros [[= <-] ?]. lia.
  - split; [done|]. by intros [? _].
Qed.

Lemma elem_of_scanned_paths t p :
  p ∈ scanned_paths t
  ↔ ∃ d f, (d, f) ∈ scanned_dirs t ∧ ∃ fname, fname ∈ f ∧ p = path_join d fname.
Proof.
  unfold scanned_paths. rewrite elem_of_flat_map. split.
  - intros ([d f] & Hd & Hp). unfold paths_in in Hp; simpl in Hp.
    apply list_elem_of_fmap in Hp as (fname & -> & Hf).
    by exists d, f; split; [|exists fname].
  - intros (d & f & Hd & fname & Hf & ->). exists (d, f). split; [done|].
    unfold paths_in; simpl. apply list_elem_of_fmap. by exists fname.
Qed.

(** Every directory in which the scan looks at the files has no
    component that is a folder to skip. *)
Lemma scanned_dirs_not_skipped t d f :
  (d, f) ∈ scanned_dirs t → should_skip d = false.
Proof.
  induction t as [dirpath filenames subdirs IH] using tree_induction.
  cbn [scanned_dirs]. destruct (should_skip dirpath) eqn:Hskip.
  { by intros ?%elem_of_nil. }
  intros [[= -> ->]|Hin]%elem_of_cons; [done|].
  apply elem_of_flat_map in Hin as (c & Hc & Hin).
  eapply Forall_forall in IH; [|done]. by apply IH.
Qed.

Lemma should_skip_false d :
  should_skip d = false
  ↔ ∀ q, q ∈ path_parts d → str_lower q ∉ SKIP_DIRS.
Proof.
  unfold should_skip. cbv zeta. split.
  - intros Hex q Hq Hin.
    assert (existsb (λ p, bool_decide (str_lower p ∈ SKIP_DIRS)) (path_parts d)
            = true); [|congruence].
    apply existsb_exists. exists q. split; [by apply list_elem_of_In|].
    by apply bool_decide_eq_true.
  - intros Hall.
    destruct (existsb _ (path_parts d)) eqn:Hex; [|done].
    apply existsb_exists in Hex as (q & Hq%list_elem_of_In & Hin).
    apply bool_decide_eq_true in Hin. by destruct (Hall q).
Qed.

(** The tree with every directory to skip emptied. *)
Fixpoint pruned (t : tree) : tree :=
  match t with
  | Node dirpath filenames subdirs =>
      if should_skip dirpath then Node dirpath [] []
      else Node dirpath filenames (pruned <$> subdirs)
  end.

Lemma scanned_dirs_pruned t : scanned_dirs (pruned t) = scanned_dirs t.
Proof.
  induction t as [dirpath filenames subdirs IH] using tree_induction.
  cbn [pruned scanned_dirs]. destruct (should_skip dirpath) eqn:Hskip.
  { cbn [scanned_dirs]. by rewrite Hskip. }
  cbn [scanned_dirs]. rewrite Hskip. f_equal.
  induction IH as [|c cs Hc _ IHcs]; [done|].
  rewrite fmap_cons. cbn [flat_map]. by rewrite Hc, IHcs.
Qed.
End ScannerProps.

(** Property X1.  When [scan_files] returns, it has left the state
    alone; the sizes that are keys of the map are pairwise distinct, no
    bucket is empty, and the bucket of a size holds, in the order of the
    walk and as often as the walk meets them, exactly the scanned paths
    for which [os.stat] gave that size, the size being at least
    [min_size]. *)
Theorem scan_files_buckets `{ScanOS} {S : Type} source_root min_size
    (s s' : S) size_map :
  scan_files source_root min_size s = (Ok size_map, s') →
  s' = s
  ∧ NoDup size_map.*1
  ∧ ∀ size paths,
      (size, paths) ∈ size_map
      ↔ paths ≠ []
        ∧ paths = filter (λ p, stat_size p = Ok size ∧ (min_size ≤ size)%Z)
                    (scanned source_root).
Proof.
  intros [-> ->]%scan_files_returns_inv. split; [done|].
  split; [apply buckets_NoDup|].
  intros size paths. rewrite elem_of_buckets.
  rewrite (list_filter_iff _ (λ p, stat_size p = Ok size ∧ (min_size ≤ size)%Z))
    by (intros p; apply listed_size_Some).
  split; intros [??]; done.
Qed.

(** Property X2.  The scan returns exactly when [os.stat] raises nothing
    but an [OSError] for the paths it looks at: a file that cannot be
    reached never ends the scan, any other exception does. *)
Theorem scan_files_returns_iff `{ScanOS} {S : Type} source_root min_size (s : S) :
  (∃ size_map, scan_files source_root min_size s = (Ok size_map, s))
  ↔ ∀ p e, p ∈ scanned source_root → stat_size p = Raise e →
      is_OSError e = true.
Proof.
  split.
  - intros [size_map Hrun] p e Hp Hstat.
    destruct (decide (Forall (λ p, ¬ stat_uncaught p) (scanned source_root)))
      as [Hl|Hl].
    + eapply Forall_forall in Hl; [|done]. unfold stat_uncaught in Hl.
      rewrite Hstat in Hl. by destruct (is_OSError e).
    + rewrite scan_files_loop in Hrun. unfold bind in Hrun.
      destruct (scan_paths_raises min_size _ ([], 0) s Hl) as [e' He'].
      by rewrite He' in Hrun.
  - intros Hall. eexists. apply scan_files_run.
    apply Forall_forall. intros p Hp. unfold stat_uncaught.
    destruct (stat_size p) as [|e] eqn:Hstat; [tauto|].
    rewrite (Hall p e); done.
Qed.

(** Property X3.  What lies in or below a directory to skip has no part
    in the scan: two walks that differ only there give the same run,
    whatever [os.stat] would do for the files there. *)
Theorem scan_files_prunes (O : ScanOS) {S : Type} walk source_root min_size
    (s : S) :
  pruned <$> walk source_root = pruned <$> os_walk source_root →
  @scan_files (with_walk O walk) S source_root min_size s
  = @scan_files O S source_root min_size s.
Proof.
  intros Hwalk. rewrite !scan_files_loop.
  replace (@scanned (with_walk O walk) source_root)
    with (@scanned O source_root); [done|].
  change (@scanned (with_walk O walk) source_root)
    with (match walk source_root with
          | None => []
          | Some top => @scanned_paths O top
          end).
  unfold scanned, scanned_paths.
  destruct (walk source_root) as [t'|], (os_walk source_root) as [t|];
    try done.
  injection Hwalk as Hwalk.
  rewrite <- (scanned_dirs_pruned t), <- (scanned_dirs_pruned t').
  by rewrite Hwalk.
Qed.

(** Property X4.  No path in or below a folder to skip is listed.  Where
    the components of every path that the scan forms are those of its
    directory and then the file name, no component of a listed path but
    the file name is, in lower case, one of [SKIP_DIRS]. *)
Theorem scan_files_lists_nothing_to_skip `{ScanOS} {S : Type} source_root
    top min_size (s s' : S) size_map :
  os_walk source_root = Some top →
  Forall (λ d, Forall (λ fname,
            path_parts (path_join d.1 fname) = path_parts d.1 ++ [fname]) d.2)
    (scanned_dirs top) →
  scan_files source_root min_size s = (Ok size_map, s') →
  ∀ size paths p q,
    (size, paths) ∈ size_map → p ∈ paths →
    q ∈ removelast (path_parts p) → str_lower q ∉ SKIP_DIRS.
Proof.
  intros Htop Hlaw [_ ->]%scan_files_returns_inv size paths p q Hin Hp Hq.
  apply elem_of_buckets in Hin as [-> _].
  apply list_elem_of_filter in Hp as [_ Hp].
  unfold scanned in Hp. rewrite Htop in Hp.
  apply elem_of_scanned_paths in Hp as (d & f & Hd & fname & Hf & ->).
  eapply Forall_forall in Hlaw; [|done]. simpl in Hlaw.
  eapply Forall_forall in Hlaw; [|done].
  rewrite Hlaw, removelast_last in Hq.
  by apply (should_skip_false d); [eapply scanned_dirs_not_skipped|].
Qed.

(** Property X5.  When the walk meets no path twice, no path is listed
    twice: every path is in at most one bucket and at most once in it. *)
Theorem scan_files_lists_once `{ScanOS} {S : Type} source_root min_size
    (s s' : S) size_map :
  NoDup (scanned source_root) →
  scan_files source_root min_size s = (Ok size_map, s') →
  NoDup (concat size_map.*2)
  ∧ each_path_in_one_bucket size_map ∧ each_path_once_in_bucket size_map.
Proof.
  intros Hnd [_ ->]%scan_files_returns_inv.
  assert (Hall : NoDup (concat (buckets (listed_size min_size)
                                  (scanned source_root)).*2)).
  { rewrite buckets_values. by apply NoDup_filter. }
  split; [done|]. apply NoDup_concat in Hall as [??]. done.
Qed.

(** ** Pruning and the components of the paths *)

(** [l] begins with [pre]. *)
Fixpoint begins_with {A} `{EqDecision A} (l pre : list A) : bool :=
  match pre, l with
  | [], _ => true
  | _ :: _, [] => false
  | x :: pre', y :: l' => bool_decide (x = y) && begins_with l' pre'
  end.

Lemma begins_with_app {A} `{EqDecision A} (l pre : list A) :
  begins_with l pre = true → ∃ k, l = pre ++ k.
Proof.
  revert l. induction pre as [|x pre IH]; intros [|y l]; simpl; try done.
  - by exists [].
  - by exists (y :: l).
  - intros [->%bool_decide_eq_true [k ->]%IH]%andb_true_iff. by exists k.
Qed.

Definition root_path (t : tree) : str :=
  match t with Node dirpath _ _ => dirpath end.

(** Every directory the walk finds, with its file names, skipped or
    not. *)
Fixpoint walked_dirs (t : tree) : list (str * list str) :=
  match t with
  | Node dirpath filenames subdirs =>
      (dirpath, filenames) :: flat_map walked_dirs subdirs
  end.

Section Nesting.
Context `{ScanOS}.

(** The walk goes down: the components of the path of a subdirectory
    begin with those of the directory it is in. *)
Fixpoint nested (t : tree) : bool :=
  match t with
  | Node dirpath _ subdirs =>
      forallb (λ c, begins_with (path_parts (root_path c)) (path_parts dirpath)
                    && nested c) subdirs
  end.

Lemma should_skip_below parent child :
  begins_with (path_parts child) (path_parts parent) = true →
  should_skip parent = true → should_skip child = true.
Proof.
  intros [k Hk]%begins_with_app. unfold should_skip. cbv zeta.
  rewrite Hk, existsb_app. by intros ->.
Qed.

Lemma walked_dirs_skipped t d :
  nested t = true → should_skip (root_path t) = true →
  d ∈ walked_dirs t → should_skip d.1 = true.
Proof.
  induction t as [dirpath filenames subdirs IH] using tree_induction.
  cbn [nested walked_dirs root_path]. intros Hnested Hskip.
  intros [->|Hd]%elem_of_cons; [done|].
  apply elem_of_flat_map in Hd as (c & Hc & Hd).
  rewrite forallb_forall in Hnested.
  destruct (proj1 (andb_true_iff _ _)
              (Hnested c (proj1 (list_elem_of_In _ _) Hc))) as [Hpre Hn].
  eapply Forall_forall in IH; [|done]. apply IH; [done| |done].
  by eapply should_skip_below.
Qed.

Lemma filter_flat_map {X B} (P : B → Prop) `{∀ b, Decision (P b)}
    (g : X → list B) (l : list X) :
  filter P (flat_map g l) = flat_map (λ x, filter P (g x)) l.
Proof.
  induction l as [|x l IH]; [done|].
  cbn [flat_map]. by rewrite filter_app, IH.
Qed.

(** On a walk that goes down, pruning saves work and changes nothing:
    the directories in which the scan looks at the files are those
    that are themselves not to be skipped. *)
Lemma scanned_dirs_nested t :
  nested t = true →
  scanned_dirs t = filter (λ d, should_skip d.1 = false) (walked_dirs t).
Proof.
  induction t as [dirpath filenames subdirs IH] using tree_induction.
  intros Hnested. cbn [scanned_dirs walked_dirs].
  destruct (should_skip dirpath) eqn:Hskip.
  - symmetry. apply filter_nil_iff. intros d Hd.
    rewrite (walked_dirs_skipped (Node dirpath filenames subdirs) d); done.
  - rewrite filter_cons, decide_True by done. f_equal.
    rewrite filter_flat_map. cbn [nested] in Hnested.
    rewrite forallb_forall in Hnested.
    induction IH as [|c cs Hc _ IHcs]; [done|].
    cbn [flat_map]. rewrite Hc, IHcs; [done| |].
    + intros x Hx. apply Hnested. by right.
    + by destruct (proj1 (andb_true_iff _ _) (Hnested c (or_introl eq_refl))).
Qed.
End Nesting.

(** Property X6.  Which files are listed.  On a walk that goes down (the
    components of the path of a subdirectory begin with those of its
    parent), a path is listed under a size exactly when it is the join
    of a directory of the walk and one of its file names, no component
    of that directory is a folder to skip, and [os.stat] gives that size
    for it, at least [min_size].  Leaving the subdirectories of a
    skipped directory out saves work and loses nothing. *)
Theorem scan_files_lists_iff `{ScanOS} {S : Type} source_root top min_size
    (s s' : S) size_map :
  os_walk source_root = Some top → nested top = true →
  scan_files source_root min_size s = (Ok size_map, s') →
  ∀ size p,
    (∃ paths, (size, paths) ∈ size_map ∧ p ∈ paths)
    ↔ (∃ d filenames fname,
         (d, filenames) ∈ walked_dirs top ∧ fname ∈ filenames
         ∧ p = path_join d fname
         ∧ ∀ q, q ∈ path_parts d → str_lower q ∉ SKIP_DIRS)
      ∧ stat_size p = Ok size ∧ (min_size ≤ size)%Z.
Proof.
  intros Htop Hnested [_ ->]%scan_files_returns_inv size p.
  assert (Hscanned : p ∈ scanned source_root
            ↔ ∃ d filenames fname,
                (d, filenames) ∈ walked_dirs top ∧ fname ∈ filenames
                ∧ p = path_join d fname
                ∧ ∀ q, q ∈ path_parts d → str_lower q ∉ SKIP_DIRS).
  { unfold scanned. rewrite Htop, elem_of_scanned_paths.
    rewrite scanned_dirs_nested by done. split.
    - intros (d & f & [Hskip Hd]%list_elem_of_filter & fname & Hf & ->).
      exists d, f, fname. split_and!; [done..|]. by apply should_skip_false.
    - intros (d & f & fname & Hd & Hf & -> & Hskip).
      exists d, f. split; [|by exists fname].
      apply list_elem_of_filter. split; [|done]. by apply should_skip_false. }
  rewrite <- Hscanned, <- listed_size_Some. split.
  - intros (paths & [-> _]%elem_of_buckets & Hp).
    by apply list_elem_of_filter in Hp as [??].
  - intros [Hp Hsize].
    exists (filter (λ x, listed_size min_size x = Some size) (scanned source_root)).
    assert (Hin : p ∈ filter (λ x, listed_size min_size x = Some size)
                        (scanned source_root))
      by by apply list_elem_of_filter.
    split; [|done]. apply elem_of_buckets. split; [done|].
    intros Hnil. rewrite Hnil in Hin. by apply elem_of_nil in Hin.
Qed.

(** ** More on the fingerprints *)

(** Property X7.  [full_hash] does not depend on the size of the chunks
    it reads, as long as it is positive: the result is the same for any
    two sizes, and for a file that can be read to the end it is the
    SHA-256 digest of the whole content. *)
Theorem full_hash_any_chunk_size `{Hashlib} path n m w :
  0 < n → 0 < m →
  (full_hash path n w).1 = (full_hash path m w).1
  ∧ ∀ f, files w path = Some f → ¬ faulty_before f (length (data f)) →
      (full_hash path n w).1 = Ok (sha256_hexdigest (data f)).
Proof.
  intros Hn Hm. rewrite !full_hash_run; cbn [fst].
  unfold full_digest, whole_read. split.
  - destruct (files w path) as [f|]; [|done].
    by rewrite (decide_False (P := n = 0)), (decide_False (P := m = 0)) by lia.
  - intros f -> Hok. rewrite (decide_False (P := n = 0)) by lia.
    by rewrite decide_False by done.
Qed.

(** Property X8.  [partial_hash] sees the first [chunk_size] bytes only:
    two files that begin with the same bytes get the same fingerprint,
    the MD5 digest of these bytes, whatever follows them, be it other
    content or a place where reading fails. *)
Theorem partial_hash_prefix_only `{Hashlib} p q w fp fq chunk_size :
  files w p = Some fp → files w q = Some fq →
  take chunk_size (data fp) = take chunk_size (data fq) →
  ¬ faulty_before fp (chunk_size `min` length (data fp)) →
  ¬ faulty_before fq (chunk_size `min` length (data fq)) →
  (partial_hash p chunk_size w).1
  = Ok (md5_hexdigest (take chunk_size (data fp)))
  ∧ (partial_hash q chunk_size w).1 = (partial_hash p chunk_size w).1.
Proof.
  intros Hp Hq Heq Hokp Hokq. rewrite !partial_hash_run; cbn [fst].
  unfold partial_digest, prefix_read. rewrite Hp, Hq.
  rewrite !decide_False by done. cbn [from_option]. by rewrite Heq.
Qed.

(** ** More on the resolver *)

(** The paths for which a partial fingerprint was computed. *)
Definition partial_hashed (tr : list call) : list str :=
  flat_map (λ c, match c with PartialHash p => [p] | FullHash _ => [] end) tr.

Lemma partial_hashed_app tr1 tr2 :
  partial_hashed (tr1 ++ tr2) = partial_hashed tr1 ++ partial_hashed tr2.
Proof. apply flat_map_app. Qed.

Lemma partial_hashed_partial l : partial_hashed (PartialHash <$> l) = l.
Proof. induction l; simpl; by f_equal. Qed.

Lemma partial_hashed_full l : partial_hashed (FullHash <$> l) = [].
Proof. by induction l. Qed.

Lemma partial_hashed_flat_map {X} (t : X → list call) (l : list X) :
  partial_hashed (flat_map t l) = flat_map (λ x, partial_hashed (t x)) l.
Proof.
  induction l as [|x l IH]; [done|].
  cbn [flat_map]. by rewrite partial_hashed_app, IH.
Qed.

Lemma filter_snd {X Y} (P : Y → Prop) `{∀ y, Decision (P y)} (l : list (X * Y)) :
  (filter (λ b, P b.2) l).*2 = filter P l.*2.
Proof.
  induction l as [|[x y] l IH]; [done|].
  rewrite fmap_cons, !filter_cons; simpl.
  destruct (decide (P y)); by rewrite ?fmap_cons, IH.
Qed.

Section ResolverMore.
Context `{Hashlib}.
Implicit Types (fs : str → option file) (size_map : dict Z (list str)).

Lemma resolve_app fs size_map1 size_map2 :
  resolve fs (size_map1 ++ size_map2)
  = resolve fs size_map1 ++ resolve fs size_map2.
Proof.
  unfold resolve, candidates, dict in *.
  by rewrite filter_app, fmap_app, flat_map_app.
Qed.

Lemma trace_of_app fs size_map1 size_map2 :
  trace_of fs (size_map1 ++ size_map2)
  = trace_of fs size_map1 ++ trace_of fs size_map2.
Proof.
  unfold trace_of, candidates, dict in *.
  by rewrite filter_app, fmap_app, flat_map_app.
Qed.

Lemma candidates_snd size_map :
  (candidates size_map).*2 = filter (λ paths, 1 < length paths) size_map.*2.
Proof.
  unfold candidates.
  change (@filter (Z * list str) (dict Z (list str)))
    with (@filter (Z * list str) (list (Z * list str))).
  exact (filter_snd (λ paths : list str, 1 < length paths) size_map).
Qed.

Lemma trace_of_partial_hashed fs size_map :
  partial_hashed (trace_of fs size_map) = concat (candidates size_map).*2.
Proof.
  unfold trace_of. rewrite partial_hashed_flat_map, <- flat_map_id_concat.
  induction (candidates size_map).*2 as [|paths l IH]; [done|].
  cbn [flat_map]. rewrite IH. f_equal. unfold trace_of_bucket.
  rewrite partial_hashed_app, partial_hashed_partial, partial_hashed_flat_map.
  replace (flat_map _ _) with (@nil str); [by rewrite app_nil_r|].
  induction (group_by (partial_fp fs) paths).*2 as [|plist l' IH']; [done|].
  cbn [flat_map]. rewrite <- IH'. unfold trace_of_plist.
  case_bool_decide; [done|]. by rewrite partial_hashed_full.
Qed.

Lemma trace_of_full_hashed_candidates fs size_map :
  full_hashed (trace_of fs size_map) ⊆+ concat (candidates size_map).*2.
Proof.
  unfold trace_of. rewrite full_hashed_flat_map.
  rewrite <- flat_map_id_concat.
  apply flat_map_submseteq. intros paths _.
  unfold trace_of_bucket.
  rewrite full_hashed_app, full_hashed_partial, full_hashed_flat_map; simpl.
  etrans; [|apply (group_by_values (partial_fp fs))].
  rewrite <- flat_map_id_concat.
  apply flat_map_submseteq. intros plist _. apply trace_of_plist_full_hashed.
Qed.

(** A non-empty full fingerprint is the digest of the whole content of
    a file that was opened and read to its end. *)
Lemma full_fp_truthy_inv fs p :
  truthy (full_fp fs p) = true →
  ∃ f, fs p = Some f ∧ ¬ faulty_before f (length (data f))
       ∧ full_fp fs p = sha256_hexdigest (data f).
Proof.
  unfold full_fp, full_digest, whole_read.
  destruct (fs p) as [f|]; [|done].
  rewrite decide_False by apply FULL_CHUNK_SIZE_nonzero.
  destruct (decide (faulty_before f (length (data f)))); [done|].
  intros _. by exists f.
Qed.
End ResolverMore.

(** Property X9.  The buckets of the size map are resolved one after the
    other and independently: the run on two maps put end to end is the
    run on the first followed by the run on the second, and its groups
    are those of the first followed by those of the second. *)
Theorem find_duplicates_app `{Hashlib} (size_map1 size_map2 : dict Z (list str)) w :
  find_duplicates (size_map1 ++ size_map2) w
  = (groups1 <- find_duplicates size_map1 ;;
     groups2 <- find_duplicates size_map2 ;;
     ret (groups1 ++ groups2)) w.
Proof.
  unfold bind. rewrite !find_duplicates_run. cbn [traced files]. unfold ret.
  by rewrite resolve_app, trace_of_app, traced_traced.
Qed.

(** Property X10.  The funnel.  A run of [find_duplicates] computes the
    partial fingerprint exactly once for every entry of every bucket
    that has two entries or more, in the order of the map, and for no
    other path: a file that is alone in its bucket is never opened.
    Every full fingerprint it computes is that of an entry whose partial
    fingerprint it has computed. *)
Theorem hashing_funnel `{Hashlib} (size_map : dict Z (list str)) w :
  ∃ tr,
    calls (find_duplicates size_map w).2 = calls w ++ tr
    ∧ partial_hashed tr
      = concat (filter (λ paths, 1 < length paths) size_map.*2)
    ∧ full_hashed tr ⊆+ partial_hashed tr.
Proof.
  rewrite find_duplicates_run. exists (trace_of (files w) size_map).
  split; [done|].
  rewrite trace_of_partial_hashed, <- candidates_snd. split; [done|].
  apply trace_of_full_hashed_candidates.
Qed.

(** Property X11.  Every member of a returned group is a file that was
    opened and read to its end without a failure, and the members of a
    group all have the same SHA-256 digest of their whole content. *)
Theorem grouped_files_were_read `{Hashlib} (size_map : dict Z (list str)) w :
  ∃ groups,
    (find_duplicates size_map w).1 = Ok groups
    ∧ ∀ g, g ∈ groups →
        ∃ digest, ∀ p, p ∈ g →
          ∃ f, files w p = Some f
               ∧ ¬ faulty_before f (length (data f))
               ∧ sha256_hexdigest (data f) = digest.
Proof.
  rewrite find_duplicates_run. eexists. split; [done|].
  intros g (size & paths & ph & fh & _ & _ & Hfh & -> & _)%elem_of_resolve.
  exists fh. intros p [<- _]%elem_of_select.
  destruct (full_fp_truthy_inv _ _ Hfh) as (f & Hf & Hok & Heq).
  by exists f.
Qed.

(** ** More on the keeper *)

Lemma key_le_length (p q : str) :
  key_le sort_key key_ltb p q → length p ≤ length q.
Proof.
  unfold key_le, key_ltb, sort_key; simpl.
  destruct (Nat.ltb_spec (length q) (length p)); [done|lia].
Qed.

Lemma StronglySorted_lookup_le {A} (R : relation A) `{!Reflexive R} l i j x y :
  StronglySorted R l → l !! i = Some x → l !! j = Some y → i ≤ j → R x y.
Proof.
  intros Hl. revert i j. induction Hl as [|z l Hl IH Hall]; intros i j.
  { by rewrite lookup_nil. }
  destruct i as [|i], j as [|j]; simpl; try lia.
  - by intros [= ->] [= ->] _.
  - intros [= ->] Hy _. eapply Forall_forall in Hall; [done|].
    by eapply list_elem_of_lookup_2.
  - intros Hx Hy Hij. apply (IH i j); [done..|lia].
Qed.

(** Property X12.  [pick_keeper] on any group, with or without repeated
    paths.  It raises [IndexError] on the empty group and on no other.
    Else the keeper and the movers are the members of the group, each as
    often as it is listed; no member is shorter than the keeper; the
    movers come in the order of their lengths; and the order in which
    the group was given does not matter. *)
Theorem pick_keeper_order (group : list str) :
  (pick_keeper group = Raise (IndexError (py "list index out of range"))
   ↔ group = [])
  ∧ (group ≠ [] → ∃ keeper movers, pick_keeper group = Ok (keeper, movers))
  ∧ (∀ keeper movers, pick_keeper group = Ok (keeper, movers) →
       group ≡ₚ keeper :: movers
       ∧ (∀ p, p ∈ group → length keeper ≤ length p)
       ∧ (∀ i j p q, movers !! i = Some p → movers !! j = Some q → i ≤ j →
            length p ≤ length q))
  ∧ (∀ group', group' ≡ₚ group → pick_keeper group' = pick_keeper group).
Proof.
  pose proof (sorted_Permutation sort_key key_ltb group) as Hperm.
  pose proof (sorted_Sorted sort_key key_ltb key_ltb_irrefl key_ltb_trans group)
    as Hsorted.
  split_and!.
  - unfold pick_keeper.
    destruct (sorted sort_key key_ltb group) as [|keeper movers].
    + split; [|done]. intros _. by apply Permutation_nil.
    + split; [done|]. intros ->. symmetry in Hperm.
      by apply Permutation_nil_cons in Hperm.
  - intros Hne. unfold pick_keeper.
    destruct (sorted sort_key key_ltb group) as [|keeper movers]; [|by eauto].
    by apply Permutation_nil in Hperm.
  - intros keeper movers. unfold pick_keeper.
    destruct (sorted sort_key key_ltb group) as [|k ms] eqn:Hs; [done|].
    intros [= -> ->]. split; [done|].
    apply Sorted_StronglySorted in Hsorted;
      [|apply (key_le_trans sort_key key_ltb key_ltb_irrefl key_ltb_trans
                 key_ltb_connex)].
    apply StronglySorted_inv in Hsorted as [Hms Hall]. split.
    + intros p Hp. rewrite <- Hperm in Hp.
      apply elem_of_cons in Hp as [->|Hp]; [done|].
      eapply Forall_forall in Hall; [|done]. by apply key_le_length.
    + intros i j p q Hi Hj Hij. apply key_le_length.
      assert (Hrefl : Reflexive (key_le sort_key key_ltb))
        by (intros x; apply key_le_refl, key_ltb_irrefl).
      by apply (StronglySorted_lookup_le _ movers i j).
  - intros group' Hperm'. unfold pick_keeper.
    by rewrite (sorted_unique sort_key key_ltb key_ltb_irrefl key_ltb_trans
                  key_ltb_connex group' group sort_key_inj Hperm').
Qed.

(** ** The passes together *)

(** Property X13.  Every group that [find_duplicates] returns has a
    keeper and at least one mover:  [pick_keeper] never raises
    [IndexError] on what the resolver hands to the planner, and every
    group the planner gets gives it a file to move. *)
Theorem returned_groups_have_movers `{Hashlib} (size_map : dict Z (list str)) w :
  ∃ groups,
    (find_duplicates size_map w).1 = Ok groups
    ∧ ∀ g, g ∈ groups →
        ∃ keeper mover movers,
          pick_keeper g = Ok (keeper, mover :: movers)
          ∧ g ≡ₚ keeper :: mover :: movers.
Proof.
  rewrite find_duplicates_run. eexists. split; [done|].
  intros g (_ & _ & _ & _ & _ & _ & _ & _ & Hlen)%elem_of_resolve.
  unfold pick_keeper.
  pose proof (sorted_Permutation sort_key key_ltb g) as Hperm.
  destruct (sorted sort_key key_ltb g) as [|keeper [|mover movers]].
  - apply Permutation_length in Hperm. simpl in Hperm. lia.
  - apply Permutation_length in Hperm. simpl in Hperm. lia.
  - by exists keeper, mover, movers.
Qed.

(** Property X14.  Scan, then resolve.  When the walk meets no path
    twice, the groups found in the size map of a scan that returns hold
    every path at most once, in one group only; the members of a group
    are scanned paths for which [os.stat] gave one and the same size,
    and that size is at least [min_size]. *)
Theorem scan_then_find_duplicates `{ScanOS} `{Hashlib} source_root min_size
    (w w' : World) size_map :
  NoDup (scanned source_root) →
  scan_files source_root min_size w = (Ok size_map, w') →
  ∃ groups,
    (find_duplicates size_map w').1 = Ok groups
    ∧ NoDup (concat groups)
    ∧ ∀ g, g ∈ groups →
        ∃ size, (min_size ≤ size)%Z
          ∧ ∀ p, p ∈ g → p ∈ scanned source_root ∧ stat_size p = Ok size.
Proof.
  intros Hnd [-> ->]%scan_files_returns_inv.
  rewrite find_duplicates_run. eexists. split; [done|]. split.
  - eapply submseteq_NoDup; [apply resolve_values|].
    rewrite buckets_values. by apply NoDup_filter.
  - intros g (size & paths & ph & fh & Hin & _ & _ & -> & Hlen)%elem_of_resolve.
    apply elem_of_buckets in Hin as [-> _].
    destruct (select _ _ _) as [|p0 g] eqn:Hsel; [simpl in Hlen; lia|].
    assert (Hp0 : p0 ∈ select (full_fp (files w)) fh
                    (select (partial_fp (files w)) ph
                       (filter (λ x, listed_size min_size x = Some size)
                          (scanned source_root))))
      by (rewrite Hsel; left).
    apply elem_of_select in Hp0 as [_ [_ Hp0]%elem_of_select].
    apply list_elem_of_filter in Hp0 as [[_ Hmin]%listed_size_Some _].
    exists size. split; [done|]. rewrite <- Hsel.
    intros p [_ [_ Hp]%elem_of_select]%elem_of_select.
    apply list_elem_of_filter in Hp as [[Hstat _]%listed_size_Some Hp].
    done.
Qed.

(** ** What the planner asks of the operating system *)

Lemma for_each_ext_in {S X A} (l : list X) (body1 body2 : X → A → M S A) acc s :
  (∀ x acc s, x ∈ l → body1 x acc s = body2 x acc s) →
  for_each l body1 acc s = for_each l body2 acc s.
Proof.
  revert acc s. induction l as [|x l IH]; intros acc s Hb; simpl; [done|].
  unfold bind. rewrite Hb by left.
  destruct (body2 x acc s) as [[a|e] s1]; [|done].
  apply IH. intros y acc' s' Hy. apply Hb. by right.
Qed.

Lemma elem_of_enumerate {A} start (l : list A) gid x :
  (gid, x) ∈ enumerate start l → x ∈ l.
Proof.
  revert start. induction l as [|y l IH]; intros start; simpl.
  - by intros ?%elem_of_nil.
  - intros [[= _ ->]|Hin%IH]%elem_of_cons; [left|by right].
Qed.

(** The run asks [os.makedirs] for the staging root and, in live
    mode, for the directory of the destination of a mover, and
    [shutil.move], in live mode only, to move a mover to its
    destination: what the two would do when asked anything else does
    not matter. *)
Lemma move_duplicates_ext {Machine : Type} (O : OS Machine) move makedirs
    duplicate_groups dest_root dry_run (s : Plan Machine) :
  (∀ m, makedirs dest_root m = @os_makedirs _ O dest_root m) →
  (dry_run = false →
   ∀ group keeper movers src rel m,
     group ∈ duplicate_groups → pick_keeper group = Ok (keeper, movers) →
     src ∈ movers → @os_path_relpath _ O src (py "C:\") = Ok rel →
     let dst := @os_path_join _ O dest_root rel in
     makedirs (@os_path_dirname _ O dst) m
     = @os_makedirs _ O (@os_path_dirname _ O dst) m
     ∧ move src dst m = @shutil_move _ O src dst m) →
  @move_duplicates _ (with_move_makedirs O move makedirs)
    duplicate_groups dest_root dry_run s
  = @move_duplicates _ O duplicate_groups dest_root dry_run s.
Proof.
  intros Hroot Hlive. unfold move_duplicates.
  unfold bind, sys, writerow;
    cbn [os_makedirs now_strftime open_w with_move_makedirs].
  rewrite Hroot.
  destruct (os_makedirs dest_root (machine s)) as [[[]|e] m1]; [|done].
  cbn [machine report].
  destruct (now_strftime m1) as [[timestamp|e] m2]; [|done].
  cbn [machine report].
  destruct (open_w _ m2) as [[[]|e] m3]; [|done].
  cbn [machine report].
  rewrite (for_each_ext_in _
             (@move_duplicates_group _ (with_move_makedirs O move makedirs)
                dest_root dry_run)
             (@move_duplicates_group _ O dest_root dry_run)); [done|].
  clear -Hlive. intros [gid group] acc s Hg%elem_of_enumerate.
  unfold move_duplicates_group.
  unfold bind, lift, try_except, sys, writerow, ret;
    cbn [os_path_getsize with_move_makedirs].
  destruct (pick_keeper group) as [[keeper movers]|e] eqn:Hpick; [|done].
  destruct (os_path_getsize keeper (machine s)) as [[size|e] m1];
    cbn [machine report]. 2:{ by destruct (is_OSError e). }
  apply for_each_ext_in. clear acc s m1.
  intros src [moved freed] s Hsrc.
  unfold move_duplicates_mover, bind, lift, try_except, sys, writerow, ret;
    cbn [os_path_relpath os_path_join os_path_dirname os_makedirs shutil_move
         with_move_makedirs].
  destruct (os_path_relpath src RELPATH_START) as [rel|e] eqn:Hrel; [|done].
  destruct dry_run; [done|].
  destruct (Hlive eq_refl group keeper movers src rel (machine s) Hg Hpick
              Hsrc Hrel) as [-> _].
  destruct (os_makedirs _ (machine s)) as [[[]|e] m1]; [|done].
  cbn [machine report].
  by destruct (Hlive eq_refl group keeper movers src rel m1 Hg Hpick
                 Hsrc Hrel) as [_ ->].
Qed.

(** Property X15.  Where the operating system is asked to change the
    disk.  [move_duplicates] asks [os.makedirs] for the staging root
    and, in live mode, for the directory of the destination of a mover;
    it asks [shutil.move] in live mode only, and only to move a mover of
    a group to its destination below the staging root.  No run depends
    on what the two calls would do for any other argument. *)
Theorem disk_changes_are_planned_moves {Machine : Type} (O : OS Machine)
    move makedirs duplicate_groups dest_root dry_run (s : Plan Machine) :
  (∀ m, makedirs dest_root m = @os_makedirs _ O dest_root m) →
  (dry_run = false →
   ∀ group keeper movers src rel m,
     group ∈ duplicate_groups → pick_keeper group = Ok (keeper, movers) →
     src ∈ movers → @os_path_relpath _ O src (py "C:\") = Ok rel →
     let dst := @os_path_join _ O dest_root rel in
     makedirs (@os_path_dirname _ O dst) m
     = @os_makedirs _ O (@os_path_dirname _ O dst) m
     ∧ move src dst m = @shutil_move _ O src dst m) →
  @move_duplicates _ (with_move_makedirs O move makedirs)
    duplicate_groups dest_root dry_run s
  = @move_duplicates _ O duplicate_groups dest_root dry_run s.
Proof. apply move_duplicates_ext. Qed.

Section DryRun.
Context {Machine : Type} `{OS Machine}.

(** A row of a dry run: it tells of no move done and of no failure. *)
Definition dry_row (r : row) : Prop :=
  ∀ gid action src dst size,
    r = [CInt gid; CStr action; CStr src; CStr dst; CInt size] →
    action = py "KEEP" ∨ action = py "WOULD_MOVE".

Lemma move_duplicates_dry_writes duplicate_groups dest_root :
  writes dry_row (move_duplicates duplicate_groups dest_root true).
Proof.
  unfold move_duplicates.
  apply writes_bind; [apply writes_sys|]. intros _.
  apply writes_bind; [apply writes_sys|]. intros timestamp.
  apply writes_bind; [apply writes_sys|]. intros _.
  apply writes_bind.
  { apply writes_writerow. by intros gid action src dst size [=]. }
  intros _. apply writes_bind; [|intros _; apply writes_ret].
  apply writes_for_each. intros [gid group] acc.
  unfold move_duplicates_group.
  apply writes_bind; [apply writes_lift|]. intros [keeper movers].
  apply writes_bind.
  { apply writes_try_except; [|intros _; apply writes_ret].
    apply writes_bind; [apply writes_sys|]. intros ?. apply writes_ret. }
  intros [file_size|]; [|apply writes_ret].
  apply writes_bind.
  { apply writes_writerow.
    intros gid' action' src' dst' size' [= _ <- _ _ _]. by left. }
  intros _. apply writes_for_each. intros src [moved freed].
  unfold move_duplicates_mover.
  apply writes_bind; [apply writes_lift|]. intros rel.
  apply writes_bind; [|intros _; apply writes_ret].
  apply writes_writerow.
  intros gid' action' src' dst' size' [= _ <- _ _ _]. by right.
Qed.
End DryRun.

(** Property X16.  A dry run moves nothing.  It never calls
    [shutil.move], and it calls [os.makedirs] for the staging root only:
    the run is the same whatever the two would do otherwise.  The rows
    it writes are the header, [KEEP] rows and [WOULD_MOVE] rows; none
    tells of a move done or failed. *)
Theorem dry_run_moves_nothing {Machine : Type} (O : OS Machine)
    move makedirs duplicate_groups dest_root (s : Plan Machine) :
  (∀ m, makedirs dest_root m = @os_makedirs _ O dest_root m) →
  @move_duplicates _ (with_move_makedirs O move makedirs)
    duplicate_groups dest_root true s
  = @move_duplicates _ O duplicate_groups dest_root true s
  ∧ ∃ new,
      report (@move_duplicates _ O duplicate_groups dest_root true s).2
      = report s ++ new
      ∧ ∀ gid action src dst size,
          [CInt gid; CStr action; CStr src; CStr dst; CInt size] ∈ new →
          action = py "KEEP" ∨ action = py "WOULD_MOVE".
Proof.
  intros Hroot. split; [by apply move_duplicates_ext|].
  destruct (@move_duplicates_dry_writes _ O duplicate_groups dest_root s)
    as (new & Hnew & Hall).
  exists new. split; [done|]. intros gid action src dst size Hin.
  eapply Forall_forall in Hall; [|done]. by eapply Hall.
Qed.

(** Property X17.  The keeper stays.  When no path is listed twice in
    the groups, [shutil.move] is never asked to move the keeper of a
    group: the run, dry or live, is the same whatever [shutil.move]
    would do with a keeper as its source. *)
Theorem keeper_is_never_moved {Machine : Type} (O : OS Machine) move
    duplicate_groups dest_root dry_run (s : Plan Machine) :
  NoDup (concat duplicate_groups) →
  (∀ src dst m,
     (∀ group keeper movers,
        group ∈ duplicate_groups → pick_keeper group = Ok (keeper, movers) →
        src ≠ keeper) →
     move src dst m = @shutil_move _ O src dst m) →
  @move_duplicates _ (with_move_makedirs O move (@os_makedirs _ O))
    duplicate_groups dest_root dry_run s
  = @move_duplicates _ O duplicate_groups dest_root dry_run s.
Proof.
  intros [Hnd Hone]%NoDup_concat Hmove.
  apply move_duplicates_ext; [done|].
  intros _ group keeper movers src rel m Hg Hpick Hsrc _ dst.
  split; [done|]. apply Hmove. intros group' keeper' movers' Hg' Hpick' ->.
  assert (Hperm : ∀ g k ms, pick_keeper g = Ok (k, ms) → g ≡ₚ k :: ms).
  { intros g k ms. unfold pick_keeper.
    pose proof (sorted_Permutation sort_key key_ltb g) as Hp.
    destruct (sorted sort_key key_ltb g); [done|]. by intros [= -> ->]. }
  pose proof (Hperm _ _ _ Hpick) as Hp. pose proof (Hperm _ _ _ Hpick') as Hp'.
  apply list_elem_of_lookup_1 in Hg as [i Hi], Hg' as [j Hj].
  assert (i = j) as ->.
  { apply (Hone i j group group' keeper'); [done..| |].
    - rewrite Hp. by right.
    - rewrite Hp'. left. }
  assert (group' = group) as -> by congruence.
  rewrite Hpick in Hpick'. injection Hpick' as -> ->.
  eapply Forall_forall in Hnd; [|by eapply list_elem_of_lookup_2].
  rewrite Hp in Hnd. by apply NoDup_cons in Hnd as [? _].
Qed.

(** ** The report *)

Lemma str_replace_REPORT_CSV (new : str) :
  str_replace REPORT_CSV (py ".csv") new
  = py "L:\find_duplicates\duplicate_report" ++ new ++ [].
Proof. vm_compute. reflexivity. Qed.

Lemma report_path_timestamp (timestamp : str) :
  str_replace REPORT_CSV (py ".csv") (py "_" ++ timestamp ++ py ".csv")
  = py "L:\find_duplicates\duplicate_report_" ++ timestamp ++ py ".csv".
Proof.
  rewrite str_replace_REPORT_CSV, app_nil_r.
  change (py "L:\find_duplicates\duplicate_report_")
    with (py "L:\find_duplicates\duplicate_report" ++ py "_").
  by rewrite <- (assoc_L (++)).
Qed.

(** Property X18.  The report is not written below the staging root.  A
    run that returns gives back the path it has opened for the report:
    the fixed name "L:\find_duplicates\duplicate_report" with an
    underscore, the time stamp that the clock gave after the staging
    root was made, and ".csv"; [dest_root] has no part in it. *)
Theorem report_path_is_fixed {Machine : Type} `{OS Machine}
    duplicate_groups dest_root dry_run (s s' : Plan Machine) path :
  move_duplicates duplicate_groups dest_root dry_run s = (Ok path, s') →
  ∃ timestamp m1 m2 m3,
    os_makedirs dest_root (machine s) = (Ok (), m1)
    ∧ now_strftime m1 = (Ok timestamp, m2)
    ∧ path = py "L:\find_duplicates\duplicate_report_" ++ timestamp
             ++ py ".csv"
    ∧ open_w path m2 = (Ok (), m3).
Proof.
  unfold move_duplicates.
  unfold bind at 1. unfold sys at 1.
  destruct (os_makedirs dest_root (machine s)) as [[[]|e] m1] eqn:Hmk;
    [|done].
  unfold bind at 1. unfold sys at 1. cbn [machine report].
  destruct (now_strftime m1) as [[timestamp|e] m2] eqn:Hnow; [|done].
  rewrite report_path_timestamp.
  unfold bind at 1. unfold sys at 1. cbn [machine report].
  destruct (open_w _ m2) as [[[]|e] m3] eqn:Hopen; [|done].
  unfold bind at 1. unfold writerow at 1. cbn [machine report].
  unfold bind at 1.
  destruct (for_each _ _ _ _) as [[acc|e] s1]; [|done].
  unfold ret. intros [= <- _].
  by exists timestamp, m1, m2, m3.
Qed.

(** ** The whole run *)

Lemma bind_congr {S A B} (m : M S A) (k1 k2 : A → M S B) s :
  (∀ a s', k1 a s' = k2 a s') → bind m k1 s = bind m k2 s.
Proof.
  intros Hk. unfold bind. destruct (m s) as [[a|e] s']; [apply Hk|done].
Qed.

Section MainFacts.
Context `{ScanOS} `{Hashlib} {Machine : Type}.

(** The part of [main] that comes after the scan and the resolver. *)
Lemma main_run (O : OS Machine) args (r : Run Machine) :
  @main _ _ _ O args r
  = match @scan_files _ (Run Machine) (args_source args) (args_min_size args) r with
    | (Ok size_map, r1) =>
        match in_world (find_duplicates size_map) r1 with
        | (Ok [], r2) => (Ok (), r2)
        | (Ok (g :: gs), r2) =>
            (total_waste <- for_each (g :: gs) (λ g total_waste,
                 try_except
                   (g0 <- lift (first_of g) ;;
                    size <- in_plan (sys (@os_path_getsize _ O g0)) ;;
                    ret (total_waste + size * (Z.of_nat (length g) - 1))%Z)
                   (λ _, ret total_waste)) 0%Z ;;
             report <- in_plan (@move_duplicates _ O (g :: gs) (args_dest args)
                                  (negb (args_move args))) ;;
             ret ()) r2
        | (Raise e, r2) => (Raise e, r2)
        end
    | (Raise e, r1) => (Raise e, r1)
    end.
Proof.
  unfold main. unfold bind at 1.
  destruct (scan_files _ _ r) as [[size_map|e] r1]; [|done].
  unfold bind at 1.
  destruct (in_world _ r1) as [[[|g gs]|e] r2]; done.
Qed.
End MainFacts.

(** Property X19.  Without [--move] nothing is moved.  A run of [main]
    whose arguments do not ask for the move never calls [shutil.move],
    and calls [os.makedirs] for the staging folder only: it is the same
    run whatever the two would do otherwise. *)
Theorem main_moves_only_on_request `{ScanOS} `{Hashlib} {Machine : Type}
    (O : OS Machine) move makedirs args (r : Run Machine) :
  args_move args = false →
  (∀ m, makedirs (args_dest args) m = @os_makedirs _ O (args_dest args) m) →
  @main _ _ _ (with_move_makedirs O move makedirs) args r
  = @main _ _ _ O args r.
Proof.
  intros Hmove Hroot. rewrite !main_run.
  destruct (scan_files _ _ r) as [[size_map|e] r1]; [|done].
  destruct (in_world _ r1) as [[[|g gs]|e] r2]; [done| |done].
  change (@os_path_getsize _ (with_move_makedirs O move makedirs))
    with (@os_path_getsize _ O).
  apply bind_congr. intros total_waste r3.
  unfold bind, in_plan. rewrite Hmove. cbn [negb].
  by rewrite move_duplicates_ext.
Qed.


(** ** The properties on drive E and drive C *)

Example scan_files_on_E :
  @scan_files Demo.scan_os_E unit (py "E:\") 1 tt = (Ok Demo.size_map_E, tt).
Proof. vm_compute. reflexivity. Qed.

(** With a least size of zero the empty file is listed too. *)
Example scan_files_on_E_from_zero :
  @scan_files Demo.scan_os_E unit (py "E:\") 0 tt
  = (Ok [(1%Z, [py "E:\a.txt"; py "E:\data\a.txt"]);
         (0%Z, [py "E:\data\empty.log"]);
         (7%Z, [py "E:\data\b.txt"])], tt).
Proof. vm_compute. reflexivity. Qed.

(** A root that cannot be listed gives the empty map. *)
Example scan_files_no_root :
  @scan_files Demo.scan_os_E unit (py "F:\") 1 tt = (Ok [], tt).
Proof. vm_compute. reflexivity. Qed.

Lemma scan_files_buckets_witness :
  tt = tt
  ∧ NoDup Demo.size_map_E.*1
  ∧ ∀ size paths,
      (size, paths) ∈ Demo.size_map_E
      ↔ paths ≠ []
        ∧ paths = filter (λ p, @stat_size Demo.scan_os_E p = Ok size
                               ∧ (1 ≤ size)%Z)
                    (@scanned Demo.scan_os_E (py "E:\")).
Proof.
  apply (@scan_files_buckets Demo.scan_os_E unit (py "E:\") 1%Z tt tt).
  vm_compute. reflexivity.
Defined.

Lemma scan_files_prunes_witness :
  @scan_files
    (with_walk Demo.scan_os_E
       (λ p, if decide (p = py "E:\") then Some Demo.tree_E_other else None))
    unit (py "E:\") 1 tt
  = @scan_files Demo.scan_os_E unit (py "E:\") 1 tt.
Proof.
  apply (scan_files_prunes Demo.scan_os_E
           (λ p, if decide (p = py "E:\") then Some Demo.tree_E_other else None)
           (py "E:\") 1%Z tt).
  vm_compute. reflexivity.
Defined.

Lemma scan_files_lists_nothing_to_skip_witness :
  @os_walk Demo.scan_os_E (py "E:\") = Some Demo.tree_E
  ∧ ∀ size paths p q,
      (size, paths) ∈ Demo.size_map_E → p ∈ paths →
      q ∈ removelast (@path_parts Demo.scan_os_E p) →
      @str_lower Demo.scan_os_E q ∉ SKIP_DIRS.
Proof.
  split; [reflexivity|].
  apply (@scan_files_lists_nothing_to_skip Demo.scan_os_E unit (py "E:\")
           Demo.tree_E 1%Z tt tt Demo.size_map_E).
  - reflexivity.
  - vm_compute. repeat constructor.
  - vm_compute. reflexivity.
Defined.

Lemma scan_files_lists_once_witness :
  NoDup (concat Demo.size_map_E.*2)
  ∧ each_path_in_one_bucket Demo.size_map_E
  ∧ each_path_once_in_bucket Demo.size_map_E.
Proof.
  apply (@scan_files_lists_once Demo.scan_os_E unit (py "E:\") 1%Z tt tt
           Demo.size_map_E).
  - apply (bool_decide_unpack _). vm_compute. exact I.
  - vm_compute. reflexivity.
Defined.

Lemma full_hash_any_chunk_size_witness :
  (@full_hash Demo.hashlib (py "E:\data\b.txt") 2 Demo.world_E).1
  = (@full_hash Demo.hashlib (py "E:\data\b.txt") 3 Demo.world_E).1
  ∧ ∀ f, files Demo.world_E (py "E:\data\b.txt") = Some f →
      ¬ faulty_before f (length (data f)) →
      (@full_hash Demo.hashlib (py "E:\data\b.txt") 2 Demo.world_E).1
      = Ok (@sha256_hexdigest Demo.hashlib (data f)).
Proof.
  apply (@full_hash_any_chunk_size Demo.hashlib (py "E:\data\b.txt") 2 3
           Demo.world_E); lia.
Defined.

(** Two files that differ from the third byte on, one of them with a
    place where reading fails after it, and chunks of two bytes. *)
Lemma partial_hash_prefix_only_witness :
  let w := Demo.world_of [(py "x.bin", File (Demo.content "ABCD") None);
                          (py "y.bin", File (Demo.content "ABxyz") (Some 3))] in
  (@partial_hash Demo.hashlib (py "x.bin") 2 w).1
  = Ok (@md5_hexdigest Demo.hashlib (take 2 (Demo.content "ABCD")))
  ∧ (@partial_hash Demo.hashlib (py "y.bin") 2 w).1
    = (@partial_hash Demo.hashlib (py "x.bin") 2 w).1.
Proof.
  intros w.
  apply (@partial_hash_prefix_only Demo.hashlib (py "x.bin") (py "y.bin") w
           (File (Demo.content "ABCD") None)
           (File (Demo.content "ABxyz") (Some 3)) 2).
  - reflexivity.
  - reflexivity.
  - reflexivity.
  - vm_compute. tauto.
  - vm_compute. lia.
Defined.

Lemma scan_then_find_duplicates_witness :
  ∃ groups,
    (@find_duplicates Demo.hashlib Demo.size_map_E Demo.world_E).1 = Ok groups
    ∧ NoDup (concat groups)
    ∧ ∀ g, g ∈ groups →
        ∃ size, (1 ≤ size)%Z
          ∧ ∀ p, p ∈ g → p ∈ @scanned Demo.scan_os_E (py "E:\")
                         ∧ @stat_size Demo.scan_os_E p = Ok size.
Proof.
  apply (@scan_then_find_duplicates Demo.scan_os_E Demo.hashlib (py "E:\") 1%Z
           Demo.world_E Demo.world_E Demo.size_map_E).
  - apply (bool_decide_unpack _). vm_compute. exact I.
  - vm_compute. reflexivity.
Defined.

(** The passes together on drive E: the two copies are one group. *)
Example find_duplicates_on_E :
  (@find_duplicates Demo.hashlib Demo.size_map_E Demo.world_E).1
  = Ok [[py "E:\a.txt"; py "E:\data\a.txt"]].
Proof. vm_compute. reflexivity. Qed.

Lemma dry_run_moves_nothing_witness :
  @move_duplicates _
    (with_move_makedirs Demo.nt_os Demo.wiping_move Demo.staging_only_makedirs)
    Demo.groups_on_C Demo.staging true (Demo.plan_of Demo.machine_C)
  = @move_duplicates _ Demo.nt_os Demo.groups_on_C Demo.staging true
      (Demo.plan_of Demo.machine_C)
  ∧ ∃ new,
      report (@move_duplicates _ Demo.nt_os Demo.groups_on_C Demo.staging true
                (Demo.plan_of Demo.machine_C)).2
      = report (Demo.plan_of Demo.machine_C) ++ new
      ∧ ∀ gid action src dst size,
          [CInt gid; CStr action; CStr src; CStr dst; CInt size] ∈ new →
          action = py "KEEP" ∨ action = py "WOULD_MOVE".
Proof.
  apply (dry_run_moves_nothing Demo.nt_os Demo.wiping_move
           Demo.staging_only_makedirs Demo.groups_on_C Demo.staging
           (Demo.plan_of Demo.machine_C)).
  intros m. reflexivity.
Defined.

Lemma keeper_is_never_moved_witness :
  @move_duplicates _
    (with_move_makedirs Demo.nt_os Demo.keeper_losing_move
       (@os_makedirs _ Demo.nt_os))
    Demo.groups_on_C Demo.staging false (Demo.plan_of Demo.machine_C)
  = @move_duplicates _ Demo.nt_os Demo.groups_on_C Demo.staging false
      (Demo.plan_of Demo.machine_C).
Proof.
  apply (keeper_is_never_moved Demo.nt_os Demo.keeper_losing_move
           Demo.groups_on_C Demo.staging false (Demo.plan_of Demo.machine_C)).
  - apply (bool_decide_unpack _). vm_compute. exact I.
  - intros src dst m Hsrc. unfold Demo.keeper_losing_move.
    destruct (decide (src ∈ [py "C:\a.txt"; py "C:\b.txt"])) as [Hin|]; [|done].
    apply elem_of_cons in Hin as [->|Hin];
      [|apply list_elem_of_singleton in Hin as ->].
    + destruct (Hsrc [py "C:\data\a.txt"; py "C:\a.txt"; py "C:\data\old\a.txt"]
                  (py "C:\a.txt") [py "C:\data\a.txt"; py "C:\data\old\a.txt"]);
        [left|vm_compute; reflexivity|done].
    + destruct (Hsrc [py "C:\b.txt"; py "C:\data\b.txt"]
                  (py "C:\b.txt") [py "C:\data\b.txt"]);
        [right; left|vm_compute; reflexivity|done].
Defined.

Lemma disk_changes_are_planned_moves_witness :
  @move_duplicates _
    (with_move_makedirs Demo.nt_os Demo.keeper_losing_move
       (@os_makedirs _ Demo.nt_os))
    Demo.groups_on_C Demo.staging false (Demo.plan_of Demo.machine_C)
  = @move_duplicates _ Demo.nt_os Demo.groups_on_C Demo.staging false
      (Demo.plan_of Demo.machine_C).
Proof.
  apply (disk_changes_are_planned_moves Demo.nt_os Demo.keeper_losing_move
           (@os_makedirs _ Demo.nt_os)
           Demo.groups_on_C Demo.staging false (Demo.plan_of Demo.machine_C)).
  - done.
  - intros _ group keeper movers src rel m Hg Hpick Hsrc _ dst.
    split; [done|]. unfold Demo.keeper_losing_move.
    destruct (decide (src ∈ [py "C:\a.txt"; py "C:\b.txt"])) as [Hin|]; [|done].
    exfalso.
    apply elem_of_cons in Hg as [->|Hg];
      [|apply list_elem_of_singleton in Hg as ->];
      vm_compute in Hpick; injection Hpick as <- <-;
      repeat (apply elem_of_cons in Hsrc as [->|Hsrc]);
      try (by apply elem_of_nil in Hsrc);
      apply (bool_decide_pack _) in Hin; vm_compute in Hin; done.
Defined.

Lemma report_path_is_fixed_witness :
  ∃ timestamp m1 m2 m3,
    @os_makedirs _ Demo.nt_os Demo.staging (machine (Demo.plan_of Demo.machine_C))
    = (Ok (), m1)
    ∧ @now_strftime _ Demo.nt_os m1 = (Ok timestamp, m2)
    ∧ py "L:\find_duplicates\duplicate_report_20260101_120000.csv"
      = py "L:\find_duplicates\duplicate_report_" ++ timestamp ++ py ".csv"
    ∧ @open_w _ Demo.nt_os
        (py "L:\find_duplicates\duplicate_report_20260101_120000.csv") m2
      = (Ok (), m3).
Proof.
  apply (@report_path_is_fixed _ Demo.nt_os Demo.groups_on_C Demo.staging true
           (Demo.plan_of Demo.machine_C)
           (@move_duplicates _ Demo.nt_os Demo.groups_on_C Demo.staging true
              (Demo.plan_of Demo.machine_C)).2).
  vm_compute. reflexivity.
Defined.

(** The whole program on drive C, without [--move]: the two groups are
    found and planned, and no file has moved. *)
Example main_on_C :
  (@main Demo.scan_os_C Demo.hashlib _ Demo.nt_os
     (mkArgs false 1 (py "C:\") Demo.staging) Demo.run_C).1 = Ok ()
  ∧ run_plan (@main Demo.scan_os_C Demo.hashlib _ Demo.nt_os
                (mkArgs false 1 (py "C:\") Demo.staging) Demo.run_C).2
    = mkPlan Demo.machine_C
        [HEADER;
         [CInt 1; CStr (py "KEEP"); CStr (py "C:\a.txt"); CStr []; CInt 1];
         [CInt 1; CStr (py "WOULD_MOVE"); CStr (py "C:\data\a.txt");
          CStr (py "L:\find_duplicates\DuplicatesStaging\data\a.txt"); CInt 1];
         [CInt 1; CStr (py "WOULD_MOVE"); CStr (py "C:\data\old\a.txt");
          CStr (py "L:\find_duplicates\DuplicatesStaging\data\old\a.txt");
          CInt 1];
         [CInt 2; CStr (py "KEEP"); CStr (py "C:\b.txt"); CStr []; CInt 7];
         [CInt 2; CStr (py "WOULD_MOVE"); CStr (py "C:\data\b.txt");
          CStr (py "L:\find_duplicates\DuplicatesStaging\data\b.txt"); CInt 7]].
Proof. split; vm_compute; reflexivity. Qed.

Lemma main_moves_only_on_request_witness :
  @main Demo.scan_os_C Demo.hashlib _
    (with_move_makedirs Demo.nt_os Demo.wiping_move Demo.staging_only_makedirs)
    (mkArgs false 1 (py "C:\") Demo.staging) Demo.run_C
  = @main Demo.scan_os_C Demo.hashlib _ Demo.nt_os
      (mkArgs false 1 (py "C:\") Demo.staging) Demo.run_C.
Proof.
  apply (@main_moves_only_on_request Demo.scan_os_C Demo.hashlib _ Demo.nt_os
           Demo.wiping_move Demo.staging_only_makedirs
           (mkArgs false 1 (py "C:\") Demo.staging) Demo.run_C).
  - reflexivity.
  - intros m. reflexivity.
Defined.


Lemma scan_files_lists_iff_witness :
  @nested Demo.scan_os_E Demo.tree_E = true
  ∧ ∀ size p,
      (∃ paths, (size, paths) ∈ Demo.size_map_E ∧ p ∈ paths)
      ↔ (∃ d filenames fname,
           (d, filenames) ∈ walked_dirs Demo.tree_E ∧ fname ∈ filenames
           ∧ p = @path_join Demo.scan_os_E d fname
           ∧ ∀ q, q ∈ @path_parts Demo.scan_os_E d →
               @str_lower Demo.scan_os_E q ∉ SKIP_DIRS)
        ∧ @stat_size Demo.scan_os_E p = Ok size ∧ (1 ≤ size)%Z.
Proof.
  split; [vm_compute; reflexivity|].
  apply (@scan_files_lists_iff Demo.scan_os_E unit (py "E:\") Demo.tree_E 1%Z
           tt tt Demo.size_map_E).
  - reflexivity.
  - vm_compute. reflexivity.
  - vm_compute. reflexivity.
Defined.
